(** * Greek word numerology: the calculator of [index.html]

    The page keeps two tables from Greek capital letters to the digits 1..9
    ([vowels], [consonants]) and their union ([alphabet_dict]); for each word it
    sums the letter values per table ([sumValues]) and reduces every sum to one
    digit by repeated digit summing ([reduceNumber]).

    Conventions of the embedding:
    - a JS object used as a table is a [gmap string Z]; [table[letter]] of a
      missing key is [undefined], here [None];
    - a word is the list of the one-code-point strings that [for (... of word)]
      yields, each written as its UTF-8 bytes (no such string names a property
      of [Object.prototype], so a missing key is never found up the chain);
    - the running total of [sumValues] is an integer of at most nine times the
      length of the word, far inside the integers that a Number holds exactly
      for any string an engine can hold: [total += v] is addition on [Z];
    - [reduceNumber] is a function of any Number, so its argument is a
      [number]: [Int z] for the Number whose value is the integer [z], or
      [NaN]. [toString] is modelled as ECMAScript defines
      [Number.prototype.toString]: all the digits up to
      [MAX_SAFE_INTEGER], the shortest decimal that reads back as the Number
      beyond it, exponent notation from [10 ^ 21] on;
    - the [while] loop takes fuel; [reduceNumber] runs it with enough.

    The reading of the input box (upper-casing, trimming, splitting at white
    space) and the HTML that [calculate] builds around the numbers are not
    modelled. *)

From Stdlib Require Import ZArith Ascii String List Lia.
From stdpp Require Import base numbers option list strings pretty gmap fin_maps.

Local Open Scope string_scope.
Local Open Scope Z_scope.

(** ** Tables *)

(** An object literal [{ k1: v1, k2: v2, ... }]: the properties are defined
    from left to right, a later one replacing an earlier one of the same
    name. *)
Definition object (props : list (string * Z)) : gmap string Z :=
  foldl (fun m kv => <[kv.1 := kv.2]> m) ∅ props.

Definition vowels : gmap string Z :=
  object [("Α", 1); ("Ε", 5); ("Η", 7); ("Ι", 9); ("Ο", 6); ("Υ", 2); ("Ω", 6)].

Definition consonants : gmap string Z :=
  object [("Β", 2); ("Γ", 3); ("Δ", 4); ("Ζ", 6); ("Θ", 8); ("Κ", 1); ("Λ", 2);
          ("Μ", 3); ("Ν", 4); ("Ξ", 5); ("Π", 7); ("Ρ", 8); ("Σ", 9); ("Τ", 1);
          ("Φ", 3); ("Χ", 4); ("Ψ", 5)].

(** [{ ...a, ...b }] copies the properties of [a], then those of [b] over
    them; stdpp's union prefers its left operand. *)
Definition spread (a b : gmap string Z) : gmap string Z := b ∪ a.

Definition alphabet_dict : gmap string Z := spread vowels consonants.

(** ** sumValues *)

(** [if (table[letter])]: [undefined] and [0] are falsy, every other number in
    a table is truthy. *)
Definition truthy (v : option Z) : bool :=
  match v with
  | Some z => negb (z =? 0)
  | None => false
  end.

(** One turn of the [for] loop: [total] after [letter]. A property that passed
    the test is read again for the addition. *)
Definition sumValues_step (table : gmap string Z) (total : Z) (letter : string) : Z :=
  if truthy (table !! letter)
  then total + default 0 (table !! letter)
  else total.

Definition sumValues (word : list string) (table : gmap string Z) : Z :=
  foldl (sumValues_step table) 0 word.

(** ** Numbers and their decimal form *)

Inductive number : Type :=
  | Int (z : Z)
  | NaN.

#[global] Instance number_eq_dec : EqDecision number.
Proof. solve_decision. Defined.

(** [Number.MAX_SAFE_INTEGER]: up to it every integer is a Number of its own
    and prints with all its digits. *)
Definition MAX_SAFE_INTEGER : Z := 2 ^ 53 - 1.

(** The Number nearest to the integer [v >= 0]: [v] itself below [2 ^ 53],
    beyond it the nearest multiple of [2 ^ e] that has a significand of 53
    bits, the even significand on a tie. *)
Definition to_double (v : Z) : Z :=
  if v <? 2 ^ 53 then v
  else
    let e := Z.log2 v - 52 in
    let q := Z.shiftr v e in
    let r := v - Z.shiftl q e in
    let half := 2 ^ (e - 1) in
    let q' := if (r <? half) || ((r =? half) && Z.even q) then q else q + 1 in
    Z.shiftl q' e.

(** The candidates that are multiples of [p] (a power of ten) around [x]: the
    one that reads back as [x], the nearer one when both do, the one with the
    even last digit on a tie. *)
Definition shortest_at (x p : Z) : option Z :=
  let lo := x / p * p in
  let hi := lo + p in
  match to_double lo =? x, to_double hi =? x with
  | true, true =>
      Some (if x - lo <? hi - x then lo
            else if hi - x <? x - lo then hi
            else if Z.even (lo / p) then lo else hi)
  | true, false => Some lo
  | false, true => Some hi
  | false, false => None
  end.

(** Fewest significant digits first: multiples of [10 ^ k], then of
    [10 ^ (k - 1)], ... *)
Fixpoint shortest_from (x : Z) (k : nat) : Z :=
  match shortest_at x (10 ^ Z.of_nat k) with
  | Some c => c
  | None =>
      match k with
      | O => x
      | S k' => shortest_from x k'
      end
  end.

(** The integer whose decimal digits [Number.prototype.toString] shows for the
    Number [x >= 0]: [x] itself up to [MAX_SAFE_INTEGER]; beyond it the
    decimal of fewest significant digits that reads back as [x], padded with
    zeros (where several have as few digits ECMAScript recommends, and
    engines take, the nearest). An integer that is no Number has no such
    decimal and is left as it is. *)
Definition printed (x : Z) : Z :=
  if x <=? MAX_SAFE_INTEGER then x
  else shortest_from x (String.length (pretty x) - 1).

(** [c] without its trailing zeros. *)
Fixpoint significand (fuel : nat) (c : Z) : Z :=
  match fuel with
  | O => c
  | S fuel' => if (0 <? c) && (c mod 10 =? 0) then significand fuel' (c / 10) else c
  end.

(** Exponent notation, for 22 digits and more: "d.ddde+NN", or "de+NN" with a
    single significant digit. *)
Definition exponential (c : Z) : string :=
  let digits := pretty c in
  match pretty (significand (String.length digits) c) with
  | String d EmptyString => String d ("e+" +:+ pretty (Z.of_nat (String.length digits) - 1))
  | String d rest => String d ("." +:+ rest +:+ "e+" +:+ pretty (Z.of_nat (String.length digits) - 1))
  | EmptyString => EmptyString
  end.

Definition toString_nonneg (x : Z) : string :=
  let c := printed x in
  if c <? 10 ^ 21 then pretty c else exponential c.

(** [n.toString()] *)
Definition toString (n : number) : string :=
  match n with
  | Int z => if z <? 0 then "-" +:+ toString_nonneg (- z) else toString_nonneg z
  | NaN => "NaN"
  end.

(** [s.split('')]: the characters of [s], one string each; here one [ascii]
    each, as [toString] is ASCII only. *)
Definition split (s : string) : list ascii := list_ascii_of_string s.

(** [Number(digit)] of a one-character string: a decimal digit is its value,
    white space is [0], anything else is [NaN]. *)
Definition Number (digit : ascii) : number :=
  let c := Z.of_N (N_of_ascii digit) in
  if (48 <=? c) && (c <=? 57) then Int (c - 48)
  else if ((9 <=? c) && (c <=? 13)) || (c =? 32) then Int 0
  else NaN.

(** [a + b] on Numbers. *)
Definition add (a b : number) : number :=
  match a, b with
  | Int x, Int y => Int (x + y)
  | _, _ => NaN
  end.

(** [n >= 10]: false for [NaN]. *)
Definition ge10 (n : number) : bool :=
  match n with
  | Int z => 10 <=? z
  | NaN => false
  end.

(** ** reduceNumber *)

(** The callback [(sum, digit) => sum + Number(digit)]. *)
Definition add_digit (sum : number) (digit : ascii) : number :=
  add sum (Number digit).

(** The body of the loop:
    [n.toString().split('').reduce(add_digit, 0)]. *)
Definition digit_sum (n : number) : number :=
  foldl add_digit (Int 0) (split (toString n)).

(** [while (n >= 10) { n = digit_sum n }; return n], with [fuel] bounding the
    number of passes: [None] when it runs out before the test fails. *)
Fixpoint reduceNumber_loop (fuel : nat) (n : number) : option number :=
  if ge10 n then
    match fuel with
    | O => None
    | S fuel' => reduceNumber_loop fuel' (digit_sum n)
    end
  else Some n.

(** No Number needs more than three passes: what prints in decimal has at most
    21 digits, so the first pass leaves at most 189, the second at most 18,
    the third at most 9 (see [reduceNumber_loop_enough]). *)
Definition reduceNumber_passes : nat := 3.

Definition reduceNumber (n : number) : option number :=
  reduceNumber_loop reduceNumber_passes n.

(** ** The table row of a word *)

(** The six numbers that [calculate] writes for one word, in the order of the
    columns. *)
Record row : Type := Row {
  vowel_sum : Z;
  vowel_reduced : number;
  consonant_sum : Z;
  consonant_reduced : number;
  total_sum : Z;
  total_reduced : number
}.

(** The body of [for (const word of words)] in [calculate]. *)
Definition calculate_row (word : list string) : option row :=
  let vowelSum := sumValues word vowels in
  let consonantSum := sumValues word consonants in
  let fullSum := sumValues word alphabet_dict in
  vowelReduced ← reduceNumber (Int vowelSum);
  consonantReduced ← reduceNumber (Int consonantSum);
  fullReduced ← reduceNumber (Int fullSum);
  Some (Row vowelSum vowelReduced consonantSum consonantReduced fullSum fullReduced).

(** ** Text as code points *)

(** Number of bytes of the UTF-8 sequence that starts with byte [b]. *)
Definition utf8_width (b : ascii) : nat :=
  let c := N_of_ascii b in
  if (c <? 128)%N then 1%nat
  else if (c <? 224)%N then 2%nat
  else if (c <? 240)%N then 3%nat
  else 4%nat.

Fixpoint letters_from (fuel : nat) (text : string) : list string :=
  match fuel, text with
  | S fuel', String b _ =>
      let w := utf8_width b in
      substring 0 w text :: letters_from fuel' (substring w (String.length text - w) text)
  | _, _ => []
  end.

(** What the string iterator yields for [text]: its code points in order. *)
Definition letters (text : string) : list string :=
  letters_from (String.length text) text.

(** The code point of a one-code-point string of one or two bytes. *)
Definition code_point (letter : string) : option N :=
  match letter with
  | String b EmptyString =>
      if (N_of_ascii b <? 128)%N then Some (N_of_ascii b) else None
  | String b1 (String b2 EmptyString) =>
      if (192 <=? N_of_ascii b1)%N && (N_of_ascii b1 <? 224)%N
         && (128 <=? N_of_ascii b2)%N && (N_of_ascii b2 <? 192)%N
      then Some (N.lor (N.shiftl (N.land (N_of_ascii b1) 31) 6) (N.land (N_of_ascii b2) 63))
      else None
  | _ => None
  end.

(** The capital letters of the Greek alphabet: U+0391 .. U+03A9, where U+03A2
    is not assigned. *)
Definition greek_capital (letter : string) : bool :=
  match code_point letter with
  | Some c => (913 <=? c)%N && (c <=? 937)%N && negb (c =? 930)%N
  | None => false
  end.

(** ** Digit sums as arithmetic *)

Fixpoint digits_total (fuel : nat) (n : Z) : Z :=
  match fuel with
  | O => 0
  | S fuel' => if n <=? 0 then 0 else n mod 10 + digits_total fuel' (n / 10)
  end.

(** The sum of the decimal digits of [n]; a number has no more digits than
    bits. *)
Definition decimal_digit_sum (n : Z) : Z :=
  digits_total (S (Z.to_nat (Z.log2 n))) n.

(** The contract in its own words: "repeatedly replace it with the sum of
    its decimal digits until the value is a single digit (value < 10)". A
    replacement of a value of 10 or more lowers it, so [n] replacements are
    never all used. *)
Fixpoint repeat_digit_sum (fuel : nat) (n : Z) : Z :=
  if n <? 10 then n
  else
    match fuel with
    | O => n
    | S fuel' => repeat_digit_sum fuel' (decimal_digit_sum n)
    end.

Definition repeated_digit_sum (n : Z) : Z := repeat_digit_sum (Z.to_nat n) n.

(** The closed form of the contract: 0 for 0, [1 + (n - 1) mod 9] for a
    positive [n]. *)
Definition digital_root (n : Z) : Z :=
  if n =? 0 then 0 else 1 + (n - 1) mod 9.

(** What a letter adds to a sum over [table]: its value when it is a key,
    nothing otherwise. *)
Definition contribution (table : gmap string Z) (letter : string) : Z :=
  match table !! letter with
  | Some v => v
  | None => 0
  end.

(** ** calculate: from the input box to the table *)

(** The code point of a one-code-point string of up to four bytes. *)
Definition scalar_value (letter : string) : option N :=
  let cont b := (128 <=? N_of_ascii b)%N && (N_of_ascii b <? 192)%N in
  let low b := N.land (N_of_ascii b) 63 in
  match letter with
  | String b1 (String b2 (String b3 EmptyString)) =>
      if (224 <=? N_of_ascii b1)%N && (N_of_ascii b1 <? 240)%N && cont b2 && cont b3
      then Some (N.lor (N.shiftl (N.land (N_of_ascii b1) 15) 12)
                       (N.lor (N.shiftl (low b2) 6) (low b3)))
      else None
  | String b1 (String b2 (String b3 (String b4 EmptyString))) =>
      if (240 <=? N_of_ascii b1)%N && (N_of_ascii b1 <? 248)%N
         && cont b2 && cont b3 && cont b4
      then Some (N.lor (N.shiftl (N.land (N_of_ascii b1) 7) 18)
                       (N.lor (N.shiftl (low b2) 12)
                              (N.lor (N.shiftl (low b3) 6) (low b4))))
      else None
  | _ => code_point letter
  end.

(** The code points that [trim] strips and [\s] matches: ECMAScript's
    WhiteSpace and LineTerminator (tab, line feed, vertical tab, form feed,
    carriage return, space, no-break space, U+1680, U+2000 .. U+200A,
    U+2028, U+2029, U+202F, U+205F, U+3000, U+FEFF). *)
Definition white_space (letter : string) : bool :=
  match scalar_value letter with
  | Some c =>
      ((9 <=? c) && (c <=? 13) || (c =? 32) || (c =? 160) || (c =? 5760)
       || (8192 <=? c) && (c <=? 8202) || (c =? 8232) || (c =? 8233)
       || (c =? 8239) || (c =? 8287) || (c =? 12288) || (c =? 65279))%N
  | None => false
  end.

Fixpoint trimStart (text : list string) : list string :=
  match text with
  | c :: rest => if white_space c then trimStart rest else text
  | [] => []
  end.

Definition trimEnd (text : list string) : list string :=
  reverse (trimStart (reverse text)).

(** [text.trim()] *)
Definition trim (text : list string) : list string := trimEnd (trimStart text).

(** [text.split(/\s+/)] from some point on: [piece] holds, last character
    first, what was read since the last separator; [matched] says that the
    characters just read are a separator, which the greedy [\s+] extends
    over all the white space that follows. At the end of the text the
    piece read so far is the last one, empty or not. *)
Fixpoint split_spaces_from (text piece : list string) (matched : bool)
    : list (list string) :=
  match text with
  | [] => [reverse piece]
  | c :: rest =>
      if white_space c then
        if matched then split_spaces_from rest [] true
        else reverse piece :: split_spaces_from rest [] true
      else split_spaces_from rest (c :: piece) false
  end.

(** [text.split(/\s+/)]: the empty text gives one empty piece. *)
Definition split_spaces (text : list string) : list (list string) :=
  split_spaces_from text [] false.

(** [input.split(/\s+/).filter(Boolean)]: a string is truthy when it is not
    empty. *)
Definition words_of (input : list string) : list (list string) :=
  filter (fun word => word ≠ []) (split_spaces input).

Definition table_head : string := "
        <table>
          <thead>
            <tr>
              <th>Word</th>
              <th>Φ₃<br>(Vowel Total)</th>
              <th>Φ₁<br>(Vowel Reduced)</th>
              <th>Σ₃<br>(Consonant Total)</th>
              <th>Σ₁<br>(Consonant Reduced)</th>
              <th>ΦΣ₃<br>(Word Total)</th>
              <th>ΦΣ₁<br>(Word Reduced)</th>
            </tr>
          </thead>
          <tbody>
      ".

(** The row of the template: [${word}] is the word itself, a number is
    written as [toString] prints it. *)
Definition table_row (word : list string) (r : row) : string :=
  "
          <tr>
            <td>" +:+ String.concat "" word +:+ "</td>
            <td>" +:+ toString (Int (vowel_sum r)) +:+ "</td>
            <td>" +:+ toString (vowel_reduced r) +:+ "</td>
            <td>" +:+ toString (Int (consonant_sum r)) +:+ "</td>
            <td>" +:+ toString (consonant_reduced r) +:+ "</td>
            <td>" +:+ toString (Int (total_sum r)) +:+ "</td>
            <td>" +:+ toString (total_reduced r) +:+ "</td>
          </tr>
        ".

Definition table_foot : string := "</tbody></table>".

Definition no_words_message : string := "<p>Please enter Greek words.</p>".

(** [for (const word of words) { ... html += row }] *)
Definition calculate_loop (html : string) (words : list (list string)) : option string :=
  foldl (fun html word =>
           h ← html; r ← calculate_row word; Some (h +:+ table_row word r))
        (Some html) words.

Section calculate.

(** [String.prototype.toUpperCase], which the page applies to what was typed;
    its Unicode tables are not spelled out here. *)
Context (toUpperCase : list string → list string).

(** [calculate()]: from the value of the input box to the new content of the
    results box. *)
Definition calculate (value : list string) : option string :=
  let input := trim (toUpperCase value) in
  let words := words_of input in
  if decide (length words = 0%nat) then Some no_words_message
  else
    html ← calculate_loop table_head words;
    Some (html +:+ table_foot).

End calculate.

(** ** The filter form of [static/app.js]

    An input of the form is the record of what the script reads and writes
    of it: its value (text, as its UTF-8 bytes), whether it is disabled,
    its [min] and [max] attributes, and, when it has a clear button,
    whether that button is hidden. The functions below take the state
    before and give the state after. *)

Module app.

Definition MIN_VAL : Z := 0.
Definition MAX_VAL : Z := 999999.

Record input : Type := Input {
  value : string;
  disabled : bool;
  attr_min : option string;
  attr_max : option string;
  clear_hidden : option bool
}.

#[global] Instance input_eq_dec : EqDecision input.
Proof. solve_decision. Defined.

Definition set_value (el : input) (v : string) : input :=
  Input v (disabled el) (attr_min el) (attr_max el) (clear_hidden el).

Definition set_disabled (el : input) (d : bool) : input :=
  Input (value el) d (attr_min el) (attr_max el) (clear_hidden el).

Definition set_attr_min (el : input) (a : option string) : input :=
  Input (value el) (disabled el) a (attr_max el) (clear_hidden el).

Definition set_attr_max (el : input) (a : option string) : input :=
  Input (value el) (disabled el) (attr_min el) a (clear_hidden el).

(** [\d] *)
Definition is_digit (c : ascii) : bool :=
  (48 <=? N_of_ascii c)%N && (N_of_ascii c <=? 57)%N.

(** [raw.replace(/[^\d]/g, "")]: every byte of a character that is no digit
    is no digit either. *)
Definition keep_digits (raw : string) : string :=
  string_of_list_ascii (filter (fun c => is_digit c = true) (list_ascii_of_string raw)).

(** The integer that a run of decimal digits denotes. *)
Definition decimal_value (digits : list ascii) : Z :=
  foldl (fun n c => 10 * n + (Z.of_N (N_of_ascii c) - 48)) 0 digits.

Fixpoint leading_digits (text : list string) : list ascii :=
  match text with
  | String c EmptyString :: rest =>
      if is_digit c then c :: leading_digits rest else []
  | _ => []
  end.

(** The Number nearest to an integer of either sign. *)
Definition round (z : Z) : Z :=
  if z <? 0 then - to_double (- z) else to_double z.

(** [parseInt(text, 10)]: white space is skipped, then a sign, then the
    digits are read as far as they go; [NaN] when there is none. The
    integer read is rounded to a Number (an engine may read the digits
    after the twentieth as zeros; [-0] and [0] are not told apart, and what
    is too large for a Number stays the integer it is instead of
    [Infinity]). *)
Definition parseInt (text : string) : number :=
  let s := trimStart (letters text) in
  let digits_of rest negative :=
    match leading_digits rest with
    | [] => NaN
    | digits => Int (round (if negative : bool then - decimal_value digits
                            else decimal_value digits))
    end in
  match s with
  | "-" :: rest => digits_of rest true
  | "+" :: rest => digits_of rest false
  | _ => digits_of s false
  end.

(** [Number.isNaN(n)] *)
Definition isNaN (n : number) : bool :=
  match n with
  | NaN => true
  | Int _ => false
  end.

(** [a < b] on Numbers: false when either is [NaN]. *)
Definition less (a b : number) : bool :=
  match a, b with
  | Int x, Int y => x <? y
  | _, _ => false
  end.

(** [a <= b] on Numbers. *)
Definition at_most (a b : number) : bool :=
  match a, b with
  | Int x, Int y => x <=? y
  | _, _ => false
  end.

(** [Math.min(a, b)] and [Math.max(a, b)]: [NaN] when either is. *)
Definition Math_min (a b : number) : number :=
  match a, b with
  | Int x, Int y => Int (Z.min x y)
  | _, _ => NaN
  end.

Definition Math_max (a b : number) : number :=
  match a, b with
  | Int x, Int y => Int (Z.max x y)
  | _, _ => NaN
  end.

(** [a + b] and [a - b] on Numbers, rounded as a Number is. *)
Definition plus (a b : number) : number :=
  match a, b with
  | Int x, Int y => Int (round (x + y))
  | _, _ => NaN
  end.

Definition minus (a b : number) : number :=
  match a, b with
  | Int x, Int y => Int (round (x - y))
  | _, _ => NaN
  end.

Definition sanitizeNumericInput (el : input) : input :=
  let raw := value el in
  let digits := keep_digits raw in
  let el := if decide (digits ≠ raw) then set_value el digits else el in
  if decide (digits = "") then el
  else
    let n := parseInt digits in
    if isNaN n then set_value el ""
    else
      let n := if less n (Int MIN_VAL) then Int MIN_VAL else n in
      let n := if less (Int MAX_VAL) n then Int MAX_VAL else n in
      set_value el (toString n).

(** [!!String(el.value || "").trim()], also written
    [String(el.value || "").trim().length > 0]. *)
Definition hasValue (el : input) : bool :=
  negb (bool_decide (trim (letters (value el)) = [])).

(** [setButtonVisibilityForInput(el)]: the clear button of an input that has
    one is hidden when the input has no value. *)
Definition setButtonVisibilityForInput (el : input) : input :=
  match clear_hidden el with
  | Some _ => Input (value el) (disabled el) (attr_min el) (attr_max el)
                    (Some (negb (hasValue el)))
  | None => el
  end.

(** The three inputs of a filter row, as [getRowInputs(i)] finds them:
    [None] for one that is not in the form. *)
Record row_inputs : Type := RowInputs {
  exact_input : option input;
  min_input : option input;
  max_input : option input
}.

Definition updateDisablesForRow (r : row_inputs) : row_inputs :=
  match exact_input r, min_input r, max_input r with
  | Some exact, Some min, Some max =>
      let hasExact := hasValue exact in
      let hasRange := hasValue min || hasValue max in
      let '(exact, min, max) :=
        if hasExact then
          let min := set_disabled (set_value min "") true in
          let max := set_disabled (set_value max "") true in
          let exact := set_disabled exact false in
          (exact, set_attr_max min None, set_attr_min max None)
        else if hasRange then
          let exact := set_disabled (set_value exact "") true in
          (exact, set_disabled min false, set_disabled max false)
        else
          (set_disabled exact false,
           set_attr_max (set_disabled min false) None,
           set_attr_min (set_disabled max false) None) in
      RowInputs (Some (setButtonVisibilityForInput exact))
                (Some (setButtonVisibilityForInput min))
                (Some (setButtonVisibilityForInput max))
  | _, _, _ => r
  end.

(** The field that was edited: ['min'], ['max'] or [null]. *)
Inductive edited_field : Type :=
  | EditedMin
  | EditedMax
  | EditedNone.

Definition enforceStrictRangeForRow (r : row_inputs) (edited : edited_field) : row_inputs :=
  match min_input r, max_input r with
  | Some _, Some _ =>
      let r := updateDisablesForRow r in
      match min_input r, max_input r with
      | Some min, Some max =>
          let minVal := if decide (value min = "") then None else Some (parseInt (value min)) in
          let maxVal := if decide (value max = "") then None else Some (parseInt (value max)) in
          let max :=
            match minVal with
            | Some m => set_attr_min max (Some (toString (Math_min (Int MAX_VAL) (plus m (Int 1)))))
            | None => set_attr_min max None
            end in
          let min :=
            match maxVal with
            | Some m => set_attr_max min (Some (toString (Math_max (Int MIN_VAL) (minus m (Int 1)))))
            | None => set_attr_max min None
            end in
          let '(min, max) :=
            match minVal, maxVal with
            | Some lo, Some hi =>
                if at_most hi lo then
                  match edited with
                  | EditedMax =>
                      (min, set_value max (toString (Math_min (Int MAX_VAL) (plus lo (Int 1)))))
                  | EditedMin =>
                      (set_value min (toString (Math_max (Int MIN_VAL) (minus hi (Int 1)))), max)
                  | EditedNone =>
                      (min, set_value max (toString (Math_min (Int MAX_VAL) (plus lo (Int 1)))))
                  end
                else (min, max)
            | _, _ => (min, max)
            end in
          RowInputs (exact_input r)
                    (Some (setButtonVisibilityForInput min))
                    (Some (setButtonVisibilityForInput max))
      | _, _ => r
      end
  | _, _ => r
  end.

(** The body of the loop of [validateFilters] for row [i]: a row that
    lacks an input is skipped; the three inputs are sanitized, the row is
    updated, and a range whose [max] is not above its [min] has its [max]
    moved. *)
Definition validateFilters_row (r : row_inputs) : row_inputs :=
  match exact_input r, min_input r, max_input r with
  | Some exact, Some min, Some max =>
      let r := updateDisablesForRow
                 (RowInputs (Some (sanitizeNumericInput exact))
                            (Some (sanitizeNumericInput min))
                            (Some (sanitizeNumericInput max))) in
      match min_input r, max_input r with
      | Some min, Some max =>
          if negb (disabled min) && negb (disabled max) then
            let minVal := if decide (value min = "") then None else Some (parseInt (value min)) in
            let maxVal := if decide (value max = "") then None else Some (parseInt (value max)) in
            match minVal, maxVal with
            | Some lo, Some hi =>
                if at_most hi lo then
                  RowInputs (exact_input r) (Some min)
                    (Some (set_value max (toString (Math_min (Int MAX_VAL) (plus lo (Int 1))))))
                else r
            | _, _ => r
            end
          else r
      | _, _ => r
      end
  | _, _, _ => r
  end.

(** The bounds check of [validateFilters] on one numeric input: whether an
    issue is pushed for it. *)
Definition out_of_bounds (el : input) : bool :=
  let v := value el in
  if decide (v = "") then false
  else
    let n := parseInt v in
    isNaN n || less n (Int MIN_VAL) || less (Int MAX_VAL) n.

(** The inputs of a row that are in the form. *)
Definition row_elements (r : row_inputs) : list input :=
  omap id [exact_input r; min_input r; max_input r].

(** [validateFilters()]: [rows] are the filter rows 1 to 6 of the form and
    [others] the other inputs that the bounds check reads (the selected
    inputs of type number or with a name that starts with n). The result
    is the rows as the loop leaves them and [ok], whether no issue was
    pushed. *)
Definition validateFilters (rows : list row_inputs) (others : list input)
    : list row_inputs * bool :=
  let rows := validateFilters_row <$> rows in
  let inputs := ((rows ≫= row_elements) ++ others)%list in
  let issues := filter (fun el => out_of_bounds el = true) inputs in
  (rows, bool_decide (length issues = 0%nat)).

(** [debounce(fn, delay)]: what the wrapped function keeps between events.
    [timer] is the variable [t], the id of the timer set last, if any
    ([clearTimeout] does not reset it); [waiting] holds the timers set by
    [wrapped] that have neither fired nor been cleared, each with the
    arguments it will pass to [fn]; [next_timer] is the id that the next
    [setTimeout] returns; [ran] lists the arguments of the calls of [fn] so
    far, the latest first. *)
Record debounced (A : Type) : Type := Debounced {
  timer : option nat;
  waiting : gmap nat A;
  next_timer : nat;
  ran : list A
}.
Arguments Debounced {A} _ _ _ _.
Arguments timer {A} _.
Arguments waiting {A} _.
Arguments next_timer {A} _.
Arguments ran {A} _.

(** What can happen to a debounced function: [wrapped(args)],
    [wrapped.flush(args)], and a timer of the page coming due. How long
    the delay is decides only when a timer comes due. *)
Inductive event (A : Type) : Type :=
  | Call (args : A)
  | Flush (args : A)
  | Due (id : nat).
Arguments Call {A} _.
Arguments Flush {A} _.
Arguments Due {A} _.

(** [clearTimeout(t)]: nothing happens when [t] is [undefined] or names a
    timer that is not waiting any more. *)
Definition clearTimeout {A} (t : option nat) (timers : gmap nat A) : gmap nat A :=
  match t with
  | Some id => delete id timers
  | None => timers
  end.

Definition debounce_step {A} (s : debounced A) (e : event A) : debounced A :=
  match e with
  | Call args =>
      let timers := clearTimeout (timer s) (waiting s) in
      let id := next_timer s in
      Debounced (Some id) (<[id := args]> timers) (S id) (ran s)
  | Flush args =>
      let timers := clearTimeout (timer s) (waiting s) in
      Debounced (timer s) timers (next_timer s) (args :: ran s)
  | Due id =>
      match waiting s !! id with
      | Some args => Debounced (timer s) (delete id (waiting s)) (next_timer s) (args :: ran s)
      | None => s
      end
  end.

(** The state that [debounce] returns with, and the state after a run of
    events. *)
Definition debounce {A} : debounced A := Debounced None ∅ 0 [].

Definition debounce_run {A} (events : list (event A)) : debounced A :=
  foldl debounce_step debounce events.

End app.

(** * Properties *)

(** [lia] with quotients and remainders by numerals. *)
Ltac Zify.zify_post_hook ::= Z.to_euclidean_division_equations.

(** A closed, decidable statement about the tables or the loop, settled by
    running its decision procedure. *)
Ltac by_evaluation := apply (bool_decide_unpack _); vm_compute; exact I.

(** ** The tables *)

Lemma vowels_not_consonants :
  map_Forall (fun k _ => consonants !! k = None) vowels.
Proof. by_evaluation. Qed.

Lemma tables_disjoint : vowels ##ₘ consonants.
Proof.
  apply map_disjoint_spec. intros k x y Hv Hc.
  pose proof (vowels_not_consonants k x Hv) as Hn. simpl in Hn. congruence.
Qed.

Lemma alphabet_values :
  map_Forall (fun k v => greek_capital k = true ∧ 1 <= v <= 9) alphabet_dict.
Proof. by_evaluation. Qed.

Lemma lookup_alphabet_dict k :
  alphabet_dict !! k = union_with (fun x _ => Some x) (consonants !! k) (vowels !! k).
Proof. unfold alphabet_dict, spread. apply lookup_union. Qed.

Lemma vowels_entries :
  map_Forall (fun k v => greek_capital k = true ∧ 1 <= v <= 9) vowels.
Proof. by_evaluation. Qed.

Lemma consonants_entries :
  map_Forall (fun k v => greek_capital k = true ∧ 1 <= v <= 9) consonants.
Proof. by_evaluation. Qed.

Lemma vowels_in_range : map_Forall (fun _ v => 1 <= v <= 9) vowels.
Proof. intros k v Hk. exact (proj2 (vowels_entries k v Hk)). Qed.

Lemma consonants_in_range : map_Forall (fun _ v => 1 <= v <= 9) consonants.
Proof. intros k v Hk. exact (proj2 (consonants_entries k v Hk)). Qed.

Lemma alphabet_dict_in_range : map_Forall (fun _ v => 1 <= v <= 9) alphabet_dict.
Proof. intros k v Hk. exact (proj2 (alphabet_values k v Hk)). Qed.

(** ** Sums over a table *)

Section sums.
Context (table : gmap string Z).

Lemma sumValues_step_contribution total letter :
  sumValues_step table total letter = total + contribution table letter.
Proof.
  unfold sumValues_step, contribution, truthy.
  destruct (table !! letter) as [v|]; simpl; [|lia].
  destruct (Z.eqb_spec v 0); simpl; lia.
Qed.

Lemma foldl_sumValues_step word total :
  foldl (sumValues_step table) total word
  = total + foldr Z.add 0 (contribution table <$> word).
Proof.
  revert total. induction word as [|letter word IH]; intros total.
  - simpl. lia.
  - rewrite fmap_cons. cbn [foldl foldr].
    rewrite IH, sumValues_step_contribution. lia.
Qed.

Lemma sumValues_nil : sumValues [] table = 0.
Proof. reflexivity. Qed.

Lemma sumValues_cons letter word :
  sumValues (letter :: word) table = contribution table letter + sumValues word table.
Proof.
  unfold sumValues. simpl. rewrite !foldl_sumValues_step, sumValues_step_contribution. lia.
Qed.

Lemma sumValues_unrecognized word :
  Forall (fun letter => table !! letter = None) word → sumValues word table = 0.
Proof.
  induction 1 as [|letter word Hl _ IH].
  - reflexivity.
  - rewrite sumValues_cons, IH. unfold contribution. by rewrite Hl.
Qed.

(** With values in 1..9, as in the three tables of the page. *)
Hypothesis values_in_range : map_Forall (fun _ v => 1 <= v <= 9) table.

Lemma contribution_bounds letter : 0 <= contribution table letter <= 9.
Proof.
  unfold contribution.
  destruct (table !! letter) as [v|] eqn:Hv; [|lia].
  pose proof (values_in_range letter v Hv). simpl in *. lia.
Qed.

Lemma sumValues_bounds word :
  0 <= sumValues word table <= 9 * Z.of_nat (length word).
Proof.
  induction word as [|letter word IH].
  - rewrite sumValues_nil. simpl. lia.
  - rewrite sumValues_cons. pose proof (contribution_bounds letter).
    simpl length. lia.
Qed.

Lemma sumValues_recognized word letter :
  letter ∈ word → is_Some (table !! letter) → 1 <= sumValues word table.
Proof.
  intros Hin [v Hv]. induction word as [|l word IH].
  - by apply elem_of_nil in Hin.
  - rewrite sumValues_cons.
    pose proof (contribution_bounds l).
    pose proof (sumValues_bounds word).
    apply elem_of_cons in Hin as [<-|Hin].
    + unfold contribution in *. rewrite Hv in *.
      pose proof (values_in_range letter v Hv). simpl in *. lia.
    + specialize (IH Hin). lia.
Qed.

Lemma table_sum_safe word :
  9 * Z.of_nat (length word) <= MAX_SAFE_INTEGER →
  0 <= sumValues word table <= MAX_SAFE_INTEGER.
Proof. intros Hlen. pose proof (sumValues_bounds word). lia. Qed.

End sums.

Lemma contribution_alphabet_dict letter :
  contribution alphabet_dict letter
  = contribution vowels letter + contribution consonants letter.
Proof.
  unfold contribution. rewrite lookup_alphabet_dict.
  destruct (vowels !! letter) as [v|] eqn:Hv.
  - rewrite (vowels_not_consonants letter v Hv). simpl. lia.
  - destruct (consonants !! letter); simpl; lia.
Qed.

(** ** Decimal digit sums *)

Lemma pow2_succ (f : nat) : 2 ^ Z.of_nat (S f) = 2 * 2 ^ Z.of_nat f.
Proof. rewrite Nat2Z.inj_succ. apply Z.pow_succ_r. lia. Qed.

Lemma pow10_succ (k : nat) : 10 ^ Z.of_nat (S k) = 10 * 10 ^ Z.of_nat k.
Proof. rewrite Nat2Z.inj_succ. apply Z.pow_succ_r. lia. Qed.

Lemma pow2_pos (f : nat) : 0 < 2 ^ Z.of_nat f.
Proof. apply Z.pow_pos_nonneg; lia. Qed.

Lemma pow10_pos (k : nat) : 0 < 10 ^ Z.of_nat k.
Proof. apply Z.pow_pos_nonneg; lia. Qed.

Lemma digits_total_nonpos fuel n : n <= 0 → digits_total fuel n = 0.
Proof.
  intros Hn. destruct fuel as [|fuel]; simpl; [reflexivity|].
  destruct (Z.leb_spec n 0); [reflexivity|lia].
Qed.

(** Any two amounts of fuel that cover the bits of [n] give the same sum. *)
Lemma digits_total_stable f f' n :
  n < 2 ^ Z.of_nat f → n < 2 ^ Z.of_nat f' → digits_total f n = digits_total f' n.
Proof.
  revert f' n. induction f as [|f IH]; intros f' n Hf Hf'.
  - change (2 ^ Z.of_nat 0) with 1 in Hf.
    rewrite (digits_total_nonpos f') by lia. reflexivity.
  - destruct f' as [|f'].
    + change (2 ^ Z.of_nat 0) with 1 in Hf'.
      rewrite (digits_total_nonpos (S f)) by lia. reflexivity.
    + simpl. destruct (Z.leb_spec n 0); [reflexivity|].
      rewrite pow2_succ in Hf, Hf'.
      f_equal. apply IH; lia.
Qed.

Lemma log2_fuel n : n < 2 ^ Z.of_nat (S (Z.to_nat (Z.log2 n))).
Proof.
  destruct (Z.le_gt_cases n 0) as [Hn|Hn].
  - pose proof (pow2_pos (S (Z.to_nat (Z.log2 n)))). lia.
  - rewrite Nat2Z.inj_succ, Z2Nat.id by apply Z.log2_nonneg.
    apply Z.log2_spec. exact Hn.
Qed.

Lemma decimal_digit_sum_fuel f n :
  n < 2 ^ Z.of_nat f → decimal_digit_sum n = digits_total f n.
Proof. intros Hf. apply digits_total_stable; [apply log2_fuel|exact Hf]. Qed.

Lemma decimal_digit_sum_nonpos n : n <= 0 → decimal_digit_sum n = 0.
Proof. apply digits_total_nonpos. Qed.

Lemma decimal_digit_sum_pos n :
  0 < n → decimal_digit_sum n = n mod 10 + decimal_digit_sum (n / 10).
Proof.
  intros Hn. unfold decimal_digit_sum at 1.
  set (f := Z.to_nat (Z.log2 n)). simpl.
  destruct (Z.leb_spec n 0); [lia|]. f_equal.
  symmetry. apply decimal_digit_sum_fuel.
  pose proof (log2_fuel n) as Hf. fold f in Hf. rewrite pow2_succ in Hf. lia.
Qed.

(** Induction along the digits. *)
Lemma digits_ind (P : Z → Prop) :
  (∀ n, n <= 0 → P n) →
  (∀ n, 0 < n → P (n / 10) → P n) →
  ∀ n, P n.
Proof.
  intros Hzero Hstep n.
  assert (Hall : ∀ f : nat, ∀ m, m < 2 ^ Z.of_nat f → P m).
  { induction f as [|f IH]; intros m Hm.
    - change (2 ^ Z.of_nat 0) with 1 in Hm. apply Hzero. lia.
    - destruct (Z.le_gt_cases m 0) as [Hle|Hgt]; [by apply Hzero|].
      apply Hstep; [exact Hgt|]. apply IH. rewrite pow2_succ in Hm. lia. }
  exact (Hall _ n (log2_fuel n)).
Qed.

Lemma decimal_digit_sum_nonneg n : 0 <= decimal_digit_sum n.
Proof.
  induction n as [n Hn|n Hn IH] using digits_ind.
  - rewrite decimal_digit_sum_nonpos by exact Hn. lia.
  - rewrite decimal_digit_sum_pos by exact Hn. lia.
Qed.

Lemma decimal_digit_sum_positive n : 0 < n → 0 < decimal_digit_sum n.
Proof.
  induction n as [n Hn|n Hn IH] using digits_ind; intros Hpos; [lia|].
  rewrite decimal_digit_sum_pos by exact Hn.
  pose proof (decimal_digit_sum_nonneg (n / 10)).
  destruct (Z.le_gt_cases (n / 10) 0) as [Hq|Hq].
  - lia.
  - specialize (IH Hq). lia.
Qed.

Lemma decimal_digit_sum_le n : 0 <= n → decimal_digit_sum n <= n.
Proof.
  induction n as [n Hn|n Hn IH] using digits_ind; intros Hpos.
  - rewrite decimal_digit_sum_nonpos by exact Hn. lia.
  - rewrite decimal_digit_sum_pos by exact Hn.
    assert (0 <= n / 10) as Hq by lia. specialize (IH Hq). lia.
Qed.

(** The digit sum of a number of two digits or more is below the number. *)
Lemma decimal_digit_sum_lt n : 10 <= n → decimal_digit_sum n < n.
Proof.
  intros Hn. rewrite decimal_digit_sum_pos by lia.
  pose proof (decimal_digit_sum_le (n / 10)). lia.
Qed.

Lemma decimal_digit_sum_single n : 0 <= n < 10 → decimal_digit_sum n = n.
Proof.
  intros Hn. destruct (Z.eq_dec n 0) as [->|Hne]; [reflexivity|].
  rewrite decimal_digit_sum_pos by lia.
  rewrite (decimal_digit_sum_nonpos (n / 10)) by lia. lia.
Qed.

(** Casting out nines. *)
Lemma decimal_digit_sum_mod9 n : 0 <= n → decimal_digit_sum n mod 9 = n mod 9.
Proof.
  induction n as [n Hn|n Hn IH] using digits_ind; intros Hpos.
  - rewrite decimal_digit_sum_nonpos by exact Hn. f_equal. lia.
  - rewrite decimal_digit_sum_pos by exact Hn.
    assert (0 <= n / 10) as Hq by lia. specialize (IH Hq). lia.
Qed.

(** A number below [10 ^ k] has at most [k] digits, nines at most. *)
Lemma decimal_digit_sum_bound (k : nat) n :
  n < 10 ^ Z.of_nat k → decimal_digit_sum n <= 9 * Z.of_nat k.
Proof.
  revert k. induction n as [n Hn|n Hn IH] using digits_ind; intros k Hk.
  - rewrite decimal_digit_sum_nonpos by exact Hn. lia.
  - rewrite decimal_digit_sum_pos by exact Hn.
    destruct k as [|k].
    + change (10 ^ Z.of_nat 0) with 1 in Hk. lia.
    + rewrite pow10_succ in Hk.
      assert (n / 10 < 10 ^ Z.of_nat k) as Hq by lia.
      specialize (IH k Hq). lia.
Qed.

(** ** The closed form *)

Lemma digital_root_single n : 0 <= n < 10 → digital_root n = n.
Proof.
  intros Hn. unfold digital_root.
  destruct (Z.eqb_spec n 0); lia.
Qed.

Lemma digital_root_range n : 0 < n → 1 <= digital_root n <= 9.
Proof.
  intros Hn. unfold digital_root.
  destruct (Z.eqb_spec n 0); lia.
Qed.

Lemma digital_root_zero n : 0 <= n → (digital_root n = 0 ↔ n = 0).
Proof.
  intros Hn. unfold digital_root.
  destruct (Z.eqb_spec n 0); lia.
Qed.

Lemma digital_root_congruent a b :
  0 <= a → 0 <= b → a mod 9 = b mod 9 → (a = 0 ↔ b = 0) → digital_root a = digital_root b.
Proof.
  intros Ha Hb Hmod Hzero. unfold digital_root.
  destruct (Z.eqb_spec a 0), (Z.eqb_spec b 0); lia.
Qed.

Lemma digital_root_digit_sum n :
  0 <= n → digital_root (decimal_digit_sum n) = digital_root n.
Proof.
  intros Hn. apply digital_root_congruent.
  - apply decimal_digit_sum_nonneg.
  - exact Hn.
  - by apply decimal_digit_sum_mod9.
  - destruct (Z.eq_dec n 0) as [->|Hne]; [done|].
    pose proof (decimal_digit_sum_positive n). lia.
Qed.

Lemma digital_root_add a b :
  0 <= a → 0 <= b →
  digital_root (digital_root a + digital_root b) = digital_root (a + b).
Proof.
  intros Ha Hb. apply digital_root_congruent.
  - unfold digital_root. destruct (Z.eqb_spec a 0), (Z.eqb_spec b 0); lia.
  - lia.
  - unfold digital_root. destruct (Z.eqb_spec a 0), (Z.eqb_spec b 0); lia.
  - unfold digital_root. destruct (Z.eqb_spec a 0), (Z.eqb_spec b 0); lia.
Qed.

(** The procedure in words computes the closed form. *)
Lemma repeat_digit_sum_root (fuel : nat) n :
  0 <= n <= Z.of_nat fuel → repeat_digit_sum fuel n = digital_root n.
Proof.
  revert n. induction fuel as [|fuel IH]; intros n Hn.
  - simpl. destruct (Z.ltb_spec n 10); [|lia].
    symmetry. apply digital_root_single. lia.
  - simpl. destruct (Z.ltb_spec n 10).
    + symmetry. apply digital_root_single. lia.
    + rewrite IH.
      * apply digital_root_digit_sum. lia.
      * pose proof (decimal_digit_sum_nonneg n).
        pose proof (decimal_digit_sum_lt n). lia.
Qed.

Lemma repeated_digit_sum_root n : 0 <= n → repeated_digit_sum n = digital_root n.
Proof. intros Hn. apply repeat_digit_sum_root. lia. Qed.

(** ** Printing and summing digits *)

Lemma MAX_SAFE_INTEGER_value : MAX_SAFE_INTEGER = 9007199254740991.
Proof. reflexivity. Qed.

Lemma pow10_21 : 10 ^ 21 = 1000000000000000000000.
Proof. reflexivity. Qed.

Lemma add_NaN_r a : add a NaN = NaN.
Proof. by destruct a. Qed.

Lemma foldl_add_digit_NaN chars : foldl add_digit NaN chars = NaN.
Proof. induction chars as [|c chars IH]; [reflexivity|exact IH]. Qed.

Lemma Number_pretty_N_char (d : N) :
  (d < 10)%N → Number (pretty_N_char d) = Int (Z.of_N d).
Proof.
  intros Hd.
  assert (d ∈ [0; 1; 2; 3; 4; 5; 6; 7; 8; 9]%N) as Hin.
  { apply list_elem_of_In. simpl. lia. }
  repeat (apply elem_of_cons in Hin as [->|Hin]; [reflexivity|]).
  by apply elem_of_nil in Hin.
Qed.

(** Summing the characters that [pretty_N_go x s] puts before [s] adds the
    digit sum of [x]. *)
Lemma foldl_add_digit_pretty_N_go (x : N) (s : string) (acc : Z) :
  foldl add_digit (Int acc) (split (pretty_N_go x s))
  = foldl add_digit (Int (acc + decimal_digit_sum (Z.of_N x))) (split s).
Proof.
  revert s acc. induction (N.lt_wf_0 x) as [x _ IH]; intros s acc.
  destruct (N.eq_dec x 0%N) as [->|Hx].
  - rewrite pretty_N_go_0. simpl Z.of_N.
    rewrite decimal_digit_sum_nonpos by lia. by rewrite Z.add_0_r.
  - rewrite pretty_N_go_step by lia.
    rewrite IH by (apply N.div_lt; lia).
    cbn [split list_ascii_of_string foldl]. unfold add_digit at 2.
    rewrite Number_pretty_N_char by (apply N.mod_lt; lia).
    cbn [add]. do 2 f_equal.
    rewrite (decimal_digit_sum_pos (Z.of_N x)) by lia.
    rewrite N2Z.inj_div, N2Z.inj_mod. change (Z.of_N 10) with 10. lia.
Qed.

Lemma foldl_add_digit_pretty (c : Z) :
  0 <= c → foldl add_digit (Int 0) (split (pretty c)) = Int (decimal_digit_sum c).
Proof.
  intros Hc. destruct c as [|p|p]; [reflexivity| |lia].
  change (pretty (Z.pos p)) with (pretty_N_go (N.pos p) "").
  rewrite foldl_add_digit_pretty_N_go. reflexivity.
Qed.

Lemma foldl_add_digit_pretty_neg (c : Z) :
  c < 0 → foldl add_digit (Int 0) (split (pretty c)) = NaN.
Proof.
  intros Hc. destruct c as [|p|p]; [lia|lia|].
  change (pretty (Z.neg p)) with (String "-" (pretty p)).
  cbn [split list_ascii_of_string foldl].
  change (add_digit (Int 0) "-") with NaN. apply foldl_add_digit_NaN.
Qed.

Lemma printed_safe n : n <= MAX_SAFE_INTEGER → printed n = n.
Proof. intros Hn. unfold printed. by destruct (Z.leb_spec n MAX_SAFE_INTEGER); [|lia]. Qed.

(** Up to [MAX_SAFE_INTEGER] the body of the loop is the decimal digit sum. *)
Lemma digit_sum_safe n :
  0 <= n <= MAX_SAFE_INTEGER → digit_sum (Int n) = Int (decimal_digit_sum n).
Proof.
  intros Hn. unfold digit_sum, toString, toString_nonneg.
  destruct (Z.ltb_spec n 0); [lia|].
  rewrite printed_safe by lia.
  rewrite MAX_SAFE_INTEGER_value in Hn.
  destruct (Z.ltb_spec n (10 ^ 21)) as [_|Hbig]; [|rewrite pow10_21 in Hbig; lia].
  apply foldl_add_digit_pretty. lia.
Qed.

(** ** The loop of reduceNumber *)

(** Two passes settle every value that a first pass can leave. *)
Lemma reduceNumber_loop_small s :
  0 <= s <= 189 → reduceNumber_loop 2 (Int s) = Some (Int (digital_root s)).
Proof.
  intros Hs.
  assert (Forall (fun s => reduceNumber_loop 2 (Int s) = Some (Int (digital_root s)))
                 (seqZ 0 190)) as Hall.
  { by_evaluation. }
  rewrite Forall_forall in Hall. apply Hall.
  apply elem_of_seqZ. lia.
Qed.

Lemma foldl_add_digit_other acc c chars :
  Number c = NaN → foldl add_digit acc (c :: chars) = NaN.
Proof.
  intros Hc. cbn [foldl]. unfold add_digit at 2.
  rewrite Hc, add_NaN_r. apply foldl_add_digit_NaN.
Qed.

Lemma exponential_not_a_digit_sum c :
  foldl add_digit (Int 0) (split (exponential c)) = NaN
  ∨ foldl add_digit (Int 0) (split (exponential c)) = Int 0.
Proof.
  unfold exponential.
  destruct (pretty (significand _ c)) as [|d [|d' rest]].
  - right. reflexivity.
  - left. cbn [split list_ascii_of_string String.append].
    change (foldl add_digit ?a (d :: ?l)) with (foldl add_digit (add_digit a d) l).
    by apply foldl_add_digit_other.
  - left. cbn [split list_ascii_of_string String.append].
    change (foldl add_digit ?a (d :: ?l)) with (foldl add_digit (add_digit a d) l).
    by apply foldl_add_digit_other.
Qed.

(** Whatever the Number, one pass leaves [NaN] or at most 21 nines. *)
Lemma digit_sum_range n :
  digit_sum n = NaN ∨ ∃ s, digit_sum n = Int s ∧ 0 <= s <= 189.
Proof.
  destruct n as [z|]; [|by left].
  unfold digit_sum, toString.
  destruct (Z.ltb_spec z 0) as [Hneg|Hpos].
  { left. cbn [split list_ascii_of_string String.append].
    by apply foldl_add_digit_other. }
  unfold toString_nonneg.
  destruct (Z.ltb_spec (printed z) (10 ^ 21)) as [Hsmall|Hbig].
  - destruct (Z.lt_ge_cases (printed z) 0) as [Hc|Hc].
    + left. by apply foldl_add_digit_pretty_neg.
    + right. exists (decimal_digit_sum (printed z)).
      split; [by apply foldl_add_digit_pretty|].
      pose proof (decimal_digit_sum_nonneg (printed z)).
      pose proof (decimal_digit_sum_bound 21 (printed z) Hsmall). lia.
  - destruct (exponential_not_a_digit_sum (printed z)) as [->| ->].
    + by left.
    + right. exists 0. split; [reflexivity|lia].
Qed.

Lemma reduceNumber_loop_succ fuel n :
  reduceNumber_loop (S fuel) n
  = if ge10 n then reduceNumber_loop fuel (digit_sum n) else Some n.
Proof. reflexivity. Qed.

Lemma reduceNumber_loop_below fuel n : ge10 n = false → reduceNumber_loop fuel n = Some n.
Proof. intros Hn. destruct fuel; simpl; by rewrite Hn. Qed.

(** More fuel never changes a result. *)
Lemma reduceNumber_loop_mono fuel fuel' n r :
  (fuel <= fuel')%nat →
  reduceNumber_loop fuel n = Some r → reduceNumber_loop fuel' n = Some r.
Proof.
  revert fuel' n. induction fuel as [|fuel IH]; intros fuel' n Hle Hr.
  - simpl in Hr. destruct (ge10 n) eqn:Hn; [discriminate|].
    rewrite reduceNumber_loop_below by exact Hn. exact Hr.
  - destruct fuel' as [|fuel']; [lia|].
    rewrite reduceNumber_loop_succ in *.
    destruct (ge10 n); [|exact Hr].
    apply IH; [lia|exact Hr].
Qed.

(** The loop ends for every Number, within three passes. *)
Lemma reduceNumber_total n : ∃ r, reduceNumber n = Some r.
Proof.
  unfold reduceNumber, reduceNumber_passes.
  rewrite reduceNumber_loop_succ.
  destruct (ge10 n); [|by eexists].
  destruct (digit_sum_range n) as [->|(s & -> & Hs)].
  - by eexists.
  - rewrite reduceNumber_loop_small by exact Hs. by eexists.
Qed.

(** A run of the loop that ends, with whatever fuel, ends with the result
    of [reduceNumber]. *)
Lemma reduceNumber_loop_enough fuel n r :
  reduceNumber_loop fuel n = Some r → reduceNumber n = Some r.
Proof.
  intros Hr. destruct (reduceNumber_total n) as [r' Hr'].
  destruct (Nat.le_ge_cases fuel reduceNumber_passes) as [Hle|Hge].
  - exact (reduceNumber_loop_mono _ _ _ _ Hle Hr).
  - pose proof (reduceNumber_loop_mono _ _ _ _ Hge Hr') as Hr''. congruence.
Qed.

Lemma reduceNumber_below z : z < 10 → reduceNumber (Int z) = Some (Int z).
Proof.
  intros Hd. apply reduceNumber_loop_below. simpl.
  destruct (Z.leb_spec 10 z); [lia|reflexivity].
Qed.

(** Up to [MAX_SAFE_INTEGER] the loop computes the closed form. *)
Lemma reduceNumber_safe n :
  0 <= n <= MAX_SAFE_INTEGER → reduceNumber (Int n) = Some (Int (digital_root n)).
Proof.
  intros Hn. destruct (Z.lt_ge_cases n 10) as [Hsmall|Hbig].
  - rewrite reduceNumber_below by exact Hsmall.
    by rewrite digital_root_single by lia.
  - unfold reduceNumber, reduceNumber_passes.
    rewrite reduceNumber_loop_succ. simpl ge10.
    destruct (Z.leb_spec 10 n); [|lia].
    rewrite digit_sum_safe by exact Hn.
    rewrite reduceNumber_loop_small.
    + by rewrite digital_root_digit_sum by lia.
    + pose proof (decimal_digit_sum_nonneg n).
      pose proof (decimal_digit_sum_bound 16 n) as Hb.
      rewrite MAX_SAFE_INTEGER_value in Hn.
      change (10 ^ Z.of_nat 16) with 10000000000000000 in Hb. lia.
Qed.

Lemma reduceNumber_loop_result fuel n r :
  reduceNumber_loop fuel n = Some r → ge10 r = false.
Proof.
  revert n. induction fuel as [|fuel IH]; intros n Hr.
  - simpl in Hr. destruct (ge10 n) eqn:Hn; congruence.
  - rewrite reduceNumber_loop_succ in Hr.
    destruct (ge10 n) eqn:Hn; [by eapply IH|congruence].
Qed.

(** Why the loop ends: a pass over [z >= 10] leaves [NaN] or less than [z]. *)
Lemma digit_sum_decreases z :
  10 <= z → digit_sum (Int z) = NaN ∨ ∃ s, digit_sum (Int z) = Int s ∧ 0 <= s < z.
Proof.
  intros Hz. destruct (Z.le_gt_cases z MAX_SAFE_INTEGER) as [Hsafe|Hbig].
  - right. exists (decimal_digit_sum z). split; [apply digit_sum_safe; lia|].
    pose proof (decimal_digit_sum_nonneg z).
    pose proof (decimal_digit_sum_lt z Hz). lia.
  - destruct (digit_sum_range (Int z)) as [Hnan|(s & Hs & Hrange)]; [by left|].
    right. exists s. split; [exact Hs|].
    rewrite MAX_SAFE_INTEGER_value in Hbig. lia.
Qed.

(** ** The row of a word *)

Lemma calculate_row_total word : ∃ r, calculate_row word = Some r.
Proof.
  unfold calculate_row.
  destruct (reduceNumber_total (Int (sumValues word vowels))) as [v ->].
  destruct (reduceNumber_total (Int (sumValues word consonants))) as [c ->].
  destruct (reduceNumber_total (Int (sumValues word alphabet_dict))) as [t ->].
  by eexists.
Qed.

(** The row of a word whose sums are safe integers. *)
Lemma calculate_row_safe word :
  9 * Z.of_nat (length word) <= MAX_SAFE_INTEGER →
  calculate_row word
  = Some (Row (sumValues word vowels) (Int (digital_root (sumValues word vowels)))
              (sumValues word consonants) (Int (digital_root (sumValues word consonants)))
              (sumValues word alphabet_dict)
              (Int (digital_root (sumValues word alphabet_dict)))).
Proof.
  intros Hlen. unfold calculate_row.
  rewrite (reduceNumber_safe (sumValues word vowels))
    by (apply table_sum_safe; [exact vowels_in_range|exact Hlen]).
  rewrite (reduceNumber_safe (sumValues word consonants))
    by (apply table_sum_safe; [exact consonants_in_range|exact Hlen]).
  rewrite (reduceNumber_safe (sumValues word alphabet_dict))
    by (apply table_sum_safe; [exact alphabet_dict_in_range|exact Hlen]).
  reflexivity.
Qed.

Lemma sumValues_alphabet_dict word :
  sumValues word alphabet_dict = sumValues word vowels + sumValues word consonants.
Proof.
  induction word as [|letter word IH].
  - reflexivity.
  - rewrite !sumValues_cons, IH, contribution_alphabet_dict. lia.
Qed.

Lemma unrecognized_by_parts letter :
  alphabet_dict !! letter = None →
  vowels !! letter = None ∧ consonants !! letter = None.
Proof.
  rewrite lookup_alphabet_dict.
  destruct (vowels !! letter), (consonants !! letter); done.
Qed.

(** ** What toString prints beyond the safe integers *)

Lemma to_double_small v : v < 2 ^ 53 → to_double v = v.
Proof. intros Hv. unfold to_double. by destruct (Z.ltb_spec v (2 ^ 53)); [|lia]. Qed.

(** Rounding to a Number never goes below a Number: here [10 ^ 21]. *)
Lemma to_double_large v : 10 ^ 21 <= v → 10 ^ 21 <= to_double v.
Proof.
  intros Hv. unfold to_double.
  destruct (Z.ltb_spec v (2 ^ 53)) as [Hsmall|_].
  { change (2 ^ 53) with 9007199254740992 in Hsmall. rewrite pow10_21 in Hv. lia. }
  assert (69 <= Z.log2 v) as Hlog.
  { change 69 with (Z.log2 (10 ^ 21)). by apply Z.log2_le_mono. }
  set (e := Z.log2 v - 52). assert (17 <= e) as He by (unfold e; lia).
  assert (2 ^ (e + 52) <= v) as Hpow.
  { replace (e + 52) with (Z.log2 v) by (unfold e; lia).
    apply Z.log2_spec. rewrite pow10_21 in Hv. lia. }
  rewrite Z.pow_add_r in Hpow by lia.
  assert (0 < 2 ^ e) as Hpos by (apply Z.pow_pos_nonneg; lia).
  set (q := Z.shiftr v e).
  assert (q = v / 2 ^ e) as Hq by (unfold q; apply Z.shiftr_div_pow2; lia).
  match goal with |- _ <= Z.shiftl ?q' e => assert (q <= q') as Hq' end.
  { destruct (_ || _); lia. }
  rewrite Z.shiftl_mul_pow2 by lia.
  assert (10 ^ 21 <= q * 2 ^ e) as Hfloor; [|nia].
  rewrite Hq. destruct (Z.le_gt_cases e 21) as [Hle|Hgt].
  - assert (10 ^ 21 = 5 ^ 21 * 2 ^ (21 - e) * 2 ^ e) as H1021.
    { rewrite <- Z.mul_assoc, <- Z.pow_add_r by lia.
      replace (21 - e + e) with 21 by lia. reflexivity. }
    assert (5 ^ 21 * 2 ^ (21 - e) <= v / 2 ^ e) as Hdiv.
    { apply Z.div_le_lower_bound; [exact Hpos|]. lia. }
    nia.
  - assert (2 ^ 52 <= v / 2 ^ e) as Hdiv.
    { apply Z.div_le_lower_bound; [exact Hpos|]. lia. }
    assert (2 ^ 22 <= 2 ^ e) as Hmono by (apply Z.pow_le_mono_r; lia).
    change (2 ^ 52) with 4503599627370496 in Hdiv.
    change (2 ^ 22) with 4194304 in Hmono.
    rewrite pow10_21. nia.
Qed.

Lemma shortest_at_reads_back x p c : shortest_at x p = Some c → to_double c = x.
Proof.
  unfold shortest_at.
  destruct (Z.eqb_spec (to_double (x / p * p)) x) as [Hlo|_],
           (Z.eqb_spec (to_double (x / p * p + p)) x) as [Hhi|_];
    intros [= <-]; try done.
  repeat case_match; done.
Qed.

Lemma shortest_from_reads_back x k :
  shortest_from x k = x ∨ to_double (shortest_from x k) = x.
Proof.
  induction k as [|k IH]; simpl.
  - destruct (shortest_at x _) as [c|] eqn:Hc; [right|by left].
    by eapply shortest_at_reads_back.
  - destruct (shortest_at x _) as [c|] eqn:Hc; [right|exact IH].
    by eapply shortest_at_reads_back.
Qed.

Lemma printed_reads_back x : printed x = x ∨ to_double (printed x) = x.
Proof.
  unfold printed. destruct (x <=? MAX_SAFE_INTEGER); [by left|].
  apply shortest_from_reads_back.
Qed.

Lemma printed_positive x : 0 < x → 0 < printed x.
Proof.
  intros Hx. destruct (printed_reads_back x) as [->|Hback]; [exact Hx|].
  destruct (Z.lt_ge_cases (printed x) (2 ^ 53)) as [Hsmall|Hbig].
  - rewrite to_double_small in Hback by exact Hsmall. lia.
  - change (2 ^ 53) with 9007199254740992 in Hbig. lia.
Qed.

Lemma printed_decimal x : x < 10 ^ 21 → printed x < 10 ^ 21.
Proof.
  intros Hx. destruct (printed_reads_back x) as [->|Hback]; [exact Hx|].
  destruct (Z.lt_ge_cases (printed x) (10 ^ 21)) as [Hc|Hc]; [exact Hc|].
  apply to_double_large in Hc. lia.
Qed.

(** What prints in decimal keeps a positive digit sum of at most 21 nines. *)
Lemma digit_sum_decimal n :
  0 < n < 10 ^ 21 →
  ∃ s, digit_sum (Int n) = Int s ∧ 1 <= s <= 189.
Proof.
  intros [Hpos Hlt]. unfold digit_sum, toString, toString_nonneg.
  destruct (Z.ltb_spec n 0); [lia|].
  pose proof (printed_positive n Hpos) as Hc.
  pose proof (printed_decimal n Hlt) as Hd.
  destruct (Z.ltb_spec (printed n) (10 ^ 21)); [|lia].
  exists (decimal_digit_sum (printed n)).
  split; [apply foldl_add_digit_pretty; lia|].
  pose proof (decimal_digit_sum_positive (printed n) Hc).
  pose proof (decimal_digit_sum_bound 21 (printed n) Hd). lia.
Qed.

(** Below [10 ^ 21] a positive Number reduces to one of 1..9. *)
Lemma reduceNumber_decimal n :
  0 < n < 10 ^ 21 → ∃ d, reduceNumber (Int n) = Some (Int d) ∧ 1 <= d <= 9.
Proof.
  intros Hn. destruct (Z.lt_ge_cases n 10) as [Hsmall|Hbig].
  - exists n. split; [by apply reduceNumber_below|lia].
  - destruct (digit_sum_decimal n Hn) as (s & Hs & Hrange).
    exists (digital_root s). split; [|apply digital_root_range; lia].
    unfold reduceNumber, reduceNumber_passes.
    rewrite reduceNumber_loop_succ. simpl ge10.
    destruct (Z.leb_spec 10 n); [|lia].
    rewrite Hs. apply reduceNumber_loop_small. lia.
Qed.

(** What [toString] prints, on Numbers whose printed form is well known. *)
Example toString_samples :
  toString (Int 0) = "0" ∧
  toString (Int 1998) = "1998" ∧
  toString (Int MAX_SAFE_INTEGER) = "9007199254740991" ∧
  toString (Int (2 ^ 64)) = "18446744073709552000" ∧
  toString (Int (10 ^ 21)) = "1e+21" ∧
  toString (Int (2 ^ 70)) = "1.1805916207174113e+21" ∧
  toString (Int (to_double (10 ^ 23))) = "1e+23" ∧
  toString (Int (-42)) = "-42".
Proof. repeat split; vm_compute; reflexivity. Qed.

Example letters_sample :
  letters "ΚΑΛΗ x" = ["Κ"; "Α"; "Λ"; "Η"; " "; "x"].
Proof. vm_compute. reflexivity. Qed.

(** * The claims *)

(** C1, as it stands, fails: [10 ^ 21] is a Number, [toString] prints it as
    "1e+21", the character "e" makes the digit sum [NaN], and [NaN >= 10] is
    false, so [reduceNumber] returns [NaN] where the closed form gives 1. *)
Lemma reduceNumber_exponent_notation :
  to_double (10 ^ 21) = 10 ^ 21 ∧
  toString (Int (10 ^ 21)) = "1e+21" ∧
  digit_sum (Int (10 ^ 21)) = NaN ∧
  reduceNumber (Int (10 ^ 21)) = Some NaN ∧
  reduceNumber (Int (10 ^ 21)) ≠ Some (Int (1 + (10 ^ 21 - 1) mod 9)).
Proof. repeat split; [vm_compute; reflexivity..|vm_compute; discriminate]. Qed.

(** Between [MAX_SAFE_INTEGER] and [10 ^ 21] the printed digits are those of
    the shortest decimal that reads back as the Number, not those of its
    value: [2 ^ 60] prints as 1152921504606847000 and reduces to 7, not 1. *)
Example reduceNumber_rounded_digits :
  to_double (2 ^ 60) = 2 ^ 60 ∧
  toString (Int (2 ^ 60)) = "1152921504606847000" ∧
  reduceNumber (Int (2 ^ 60)) = Some (Int 7) ∧
  digital_root (2 ^ 60) = 1.
Proof. repeat split; vm_compute; reflexivity. Qed.

(** C1 (amended): for every integer [n] with [0 <= n <= MAX_SAFE_INTEGER],
    [reduceNumber n] is the result of replacing [n] by the sum of its decimal
    digits until the value is below 10, and it is the closed form: 0 for 0,
    [1 + (n - 1) mod 9] for positive [n]. *)
Theorem reduceNumber_digital_root (n : Z) :
  0 <= n <= MAX_SAFE_INTEGER →
  reduceNumber (Int n) = Some (Int (repeated_digit_sum n)) ∧
  reduceNumber (Int n) = Some (Int (if n =? 0 then 0 else 1 + (n - 1) mod 9)).
Proof.
  intros Hn. rewrite repeated_digit_sum_root by lia.
  split; exact (reduceNumber_safe n Hn).
Qed.

Lemma reduceNumber_digital_root_witness :
  0 <= 1998 <= MAX_SAFE_INTEGER ∧
  reduceNumber (Int 1998) = Some (Int (repeated_digit_sum 1998)) ∧
  reduceNumber (Int 1998) = Some (Int (if 1998 =? 0 then 0 else 1 + (1998 - 1) mod 9)).
Proof.
  assert (0 <= 1998 <= MAX_SAFE_INTEGER) as H by (rewrite MAX_SAFE_INTEGER_value; lia).
  split; [exact H|exact (reduceNumber_digital_root 1998 H)].
Defined.

(** C2: for every word the sum over [alphabet_dict] is the sum over [vowels]
    plus the sum over [consonants]. *)
Theorem total_is_vowels_plus_consonants (word : list string) :
  sumValues word alphabet_dict = sumValues word vowels + sumValues word consonants.
Proof.
  induction word as [|letter word IH].
  - reflexivity.
  - rewrite !sumValues_cons, IH, contribution_alphabet_dict. lia.
Qed.

(** C3: the rows of the words "ΑΒ" and "ΚΑΛΗ": sums 1, 2, 3, each reduced to
    itself; sums 8, 3, 11, the last reduced to 2. *)
Theorem literal_rows :
  calculate_row (letters "ΑΒ") = Some (Row 1 (Int 1) 2 (Int 2) 3 (Int 3)) ∧
  calculate_row (letters "ΚΑΛΗ") = Some (Row 8 (Int 8) 3 (Int 3) 11 (Int 2)).
Proof. split; vm_compute; reflexivity. Qed.

(** C4: [vowels] has 7 entries, [consonants] 17, their union 24; no letter is
    a key of both; the keys are the 24 capital letters of the Greek alphabet
    and every value lies in 1..9. *)
Theorem tables_shape :
  size vowels = 7%nat ∧ size consonants = 17%nat ∧ size alphabet_dict = 24%nat ∧
  dom vowels ## dom consonants ∧
  dom alphabet_dict = dom vowels ∪ dom consonants ∧
  dom alphabet_dict = list_to_set (letters "ΑΒΓΔΕΖΗΘΙΚΛΜΝΞΟΠΡΣΤΥΦΧΨΩ") ∧
  map_Forall (fun k v => greek_capital k = true ∧ 1 <= v <= 9) vowels ∧
  map_Forall (fun k v => greek_capital k = true ∧ 1 <= v <= 9) consonants ∧
  map_Forall (fun k v => greek_capital k = true ∧ 1 <= v <= 9) alphabet_dict.
Proof.
  split; [by vm_compute|]. split; [by vm_compute|]. split; [by vm_compute|].
  split.
  { apply map_disjoint_dom. exact tables_disjoint. }
  split.
  { unfold alphabet_dict, spread. rewrite dom_union_L. apply union_comm_L. }
  split.
  { by_evaluation. }
  split; [exact vowels_entries|].
  split; [exact consonants_entries|exact alphabet_values].
Qed.

(** C5: the sum of a word over any table is the sum, letter by letter, of the
    table's value for a letter that is a key and of 0 for any other; a
    character that is no capital Greek letter is a key of none of the three
    tables, so Latin letters, digits, punctuation, blanks and lower-case or
    accented Greek letters add 0. *)
Theorem sumValues_contributions (word : list string) (table : gmap string Z) :
  sumValues word table
  = foldr Z.add 0 ((fun letter => default 0 (table !! letter)) <$> word) ∧
  (∀ letter, greek_capital letter = false →
     vowels !! letter = None ∧ consonants !! letter = None
     ∧ alphabet_dict !! letter = None) ∧
  Forall (fun letter => greek_capital letter = false
                        ∧ sumValues [letter] alphabet_dict = 0
                        ∧ sumValues [letter] vowels = 0
                        ∧ sumValues [letter] consonants = 0)
         ["A"; "B"; "a"; "z"; "0"; "7"; "."; ","; "!"; "-"; " "; "α"; "ω"; "ά"; "Ά"].
Proof.
  split; [|split].
  - unfold sumValues. rewrite foldl_sumValues_step. apply Z.add_0_l.
  - intros letter Hl.
    assert (alphabet_dict !! letter = None) as Hnone.
    { destruct (alphabet_dict !! letter) as [v|] eqn:Hv; [|reflexivity].
      pose proof (proj1 (alphabet_values letter v Hv)). congruence. }
    destruct (unrecognized_by_parts letter Hnone). done.
  - by_evaluation.
Qed.

Lemma sumValues_contributions_witness :
  sumValues ["Κ"; "x"; "Α"; "ά"] vowels
  = foldr Z.add 0 ((fun letter => default 0 (vowels !! letter)) <$> ["Κ"; "x"; "Α"; "ά"]) ∧
  greek_capital "ά" = false ∧
  vowels !! "ά" = None ∧ consonants !! "ά" = None ∧ alphabet_dict !! "ά" = None.
Proof.
  destruct (sumValues_contributions ["Κ"; "x"; "Α"; "ά"] vowels) as (Hsum & Hother & _).
  assert (greek_capital "ά" = false) as H by (vm_compute; reflexivity).
  split; [exact Hsum|]. split; [exact H|exact (Hother "ά" H)].
Defined.

(** C6: [sumValues] yields an integer for every word and table; the loop of
    [reduceNumber] ends for every Number, with a value that fails its test;
    a pass over [z >= 10] leaves less than [z] (the decimal digit sum is
    smaller, and what does not print in decimal leaves [NaN]); so every word
    has its row. *)
Theorem core_is_total (word : list string) (table : gmap string Z) (n : number) :
  (∃ total : Z, sumValues word table = total) ∧
  (∃ fuel r, reduceNumber_loop fuel n = Some r ∧ ge10 r = false
             ∧ reduceNumber n = Some r) ∧
  (∀ z, 10 <= z →
     decimal_digit_sum z < z ∧
     (digit_sum (Int z) = NaN ∨ ∃ s, digit_sum (Int z) = Int s ∧ 0 <= s < z)) ∧
  (∃ r, calculate_row word = Some r).
Proof.
  split; [by eexists|]. split.
  { destruct (reduceNumber_total n) as [r Hr].
    exists reduceNumber_passes, r. split; [exact Hr|].
    split; [exact (reduceNumber_loop_result _ _ _ Hr)|exact Hr]. }
  split.
  { intros z Hz. split; [by apply decimal_digit_sum_lt|by apply digit_sum_decreases]. }
  apply calculate_row_total.
Qed.

Lemma core_is_total_witness :
  (∃ total : Z, sumValues ["Κ"; "Α"; "Λ"; "Η"] alphabet_dict = total) ∧
  (∃ r, reduceNumber (Int 1998) = Some r) ∧
  (10 <= 1998 ∧ decimal_digit_sum 1998 < 1998) ∧
  (∃ r, calculate_row ["Κ"; "Α"; "Λ"; "Η"] = Some r).
Proof.
  destruct (core_is_total ["Κ"; "Α"; "Λ"; "Η"] alphabet_dict (Int 1998))
    as (Hsum & (fuel & r & _ & _ & Hr) & Hless & Hrow).
  split; [exact Hsum|]. split; [by exists r|].
  split; [|exact Hrow].
  assert (10 <= 1998) as H by lia.
  split; [exact H|exact (proj1 (Hless 1998 H))].
Defined.

(** C7: a word none of whose letters is a key of the table, the empty word
    included, sums to 0 over it; when none is a key of [alphabet_dict] all
    six numbers of its row are 0. *)
Theorem unrecognized_word_is_zero (word : list string) (table : gmap string Z) :
  sumValues [] table = 0 ∧
  calculate_row [] = Some (Row 0 (Int 0) 0 (Int 0) 0 (Int 0)) ∧
  (Forall (fun letter => table !! letter = None) word → sumValues word table = 0) ∧
  (Forall (fun letter => alphabet_dict !! letter = None) word →
   calculate_row word = Some (Row 0 (Int 0) 0 (Int 0) 0 (Int 0))).
Proof.
  split; [reflexivity|]. split; [reflexivity|].
  split; [apply sumValues_unrecognized|].
  intros Hall. unfold calculate_row.
  rewrite (sumValues_unrecognized alphabet_dict word Hall).
  rewrite (sumValues_unrecognized vowels word),
          (sumValues_unrecognized consonants word).
  - reflexivity.
  - eapply Forall_impl; [exact Hall|].
    intros l Hl. exact (proj2 (unrecognized_by_parts l Hl)).
  - eapply Forall_impl; [exact Hall|].
    intros l Hl. exact (proj1 (unrecognized_by_parts l Hl)).
Qed.

Lemma unrecognized_word_is_zero_witness :
  (Forall (fun letter => vowels !! letter = None) ["Β"; "7"; "α"]
   ∧ sumValues ["Β"; "7"; "α"] vowels = 0) ∧
  (Forall (fun letter => alphabet_dict !! letter = None) ["x"; "7"; "α"]
   ∧ calculate_row ["x"; "7"; "α"] = Some (Row 0 (Int 0) 0 (Int 0) 0 (Int 0))).
Proof.
  assert (Forall (fun letter => vowels !! letter = None) ["Β"; "7"; "α"]) as H1
    by by_evaluation.
  assert (Forall (fun letter => alphabet_dict !! letter = None) ["x"; "7"; "α"]) as H2
    by by_evaluation.
  split.
  - split; [exact H1|].
    exact (proj1 (proj2 (proj2 (unrecognized_word_is_zero ["Β"; "7"; "α"] vowels))) H1).
  - split; [exact H2|].
    exact (proj2 (proj2 (proj2 (unrecognized_word_is_zero ["x"; "7"; "α"] vowels))) H2).
Defined.

(** C8: [reduceNumber d = d] for every digit [d] in 0..9. *)
Theorem reduceNumber_fixes_digits (d : Z) :
  0 <= d <= 9 → reduceNumber (Int d) = Some (Int d).
Proof.
  intros Hd. unfold reduceNumber.
  apply reduceNumber_loop_below. simpl.
  destruct (Z.leb_spec 10 d); [lia|reflexivity].
Qed.

Lemma reduceNumber_fixes_digits_witness :
  0 <= 7 <= 9 ∧ reduceNumber (Int 7) = Some (Int 7).
Proof.
  assert (0 <= 7 <= 9) as H by lia.
  split; [exact H|exact (reduceNumber_fixes_digits 7 H)].
Defined.

(** C9, as it stands, fails: [10 ^ 21] is positive and [reduceNumber]
    returns [NaN] for it, which is no number of 1..9. *)
Lemma reduceNumber_positive_fails :
  0 < 10 ^ 21 ∧
  to_double (10 ^ 21) = 10 ^ 21 ∧
  reduceNumber (Int (10 ^ 21)) = Some NaN ∧
  (∀ d, 1 <= d <= 9 → reduceNumber (Int (10 ^ 21)) ≠ Some (Int d)).
Proof.
  split; [by vm_compute|]. split; [by vm_compute|].
  assert (reduceNumber (Int (10 ^ 21)) = Some NaN) as H by (by vm_compute).
  split; [exact H|]. intros d _. rewrite H. discriminate.
Qed.

(** C9 (amended): for every positive integer [n] below [10 ^ 21] (where
    [toString] prints in decimal), [reduceNumber n] is one of 1..9; for every
    integer [n] with [0 <= n < 10 ^ 21], [reduceNumber n] is 0 exactly when
    [n] is 0; and the row of a word that has a letter of [alphabet_dict], and
    whose sums are safe integers, has a reduced total in 1..9. *)
Theorem reduceNumber_positive :
  (∀ n, 0 < n < 10 ^ 21 →
     ∃ d, reduceNumber (Int n) = Some (Int d) ∧ 1 <= d <= 9) ∧
  (∀ n, 0 <= n < 10 ^ 21 →
     (reduceNumber (Int n) = Some (Int 0) ↔ n = 0)) ∧
  (∀ (word : list string) (letter : string),
     9 * Z.of_nat (length word) <= MAX_SAFE_INTEGER →
     letter ∈ word →
     is_Some (alphabet_dict !! letter) →
     ∃ r d, calculate_row word = Some r ∧ total_reduced r = Int d ∧ 1 <= d <= 9).
Proof.
  split; [exact reduceNumber_decimal|]. split.
  - intros n Hn. split.
    + intros Hzero. destruct (Z.eq_dec n 0) as [->|Hne]; [reflexivity|].
      destruct (reduceNumber_decimal n) as (d & Hd & Hrange); [lia|].
      rewrite Hd in Hzero. injection Hzero as ->. lia.
    + intros ->. reflexivity.
  - intros word letter Hlen Hin Hkey.
    eexists _, _. split; [by apply calculate_row_safe|]. split; [reflexivity|].
    apply digital_root_range.
    assert (1 <= sumValues word alphabet_dict) as Hsum; [|lia].
    exact (sumValues_recognized alphabet_dict alphabet_dict_in_range
             word letter Hin Hkey).
Qed.

Lemma reduceNumber_positive_witness :
  (0 < 2 ^ 60 < 10 ^ 21
   ∧ ∃ d, reduceNumber (Int (2 ^ 60)) = Some (Int d) ∧ 1 <= d <= 9) ∧
  (0 <= 0 < 10 ^ 21
   ∧ (reduceNumber (Int 0) = Some (Int 0) ↔ 0 = 0)) ∧
  (9 * Z.of_nat (length ["Κ"; "Α"; "Λ"; "Η"]) <= MAX_SAFE_INTEGER
   ∧ "Λ" ∈ ["Κ"; "Α"; "Λ"; "Η"]
   ∧ is_Some (alphabet_dict !! "Λ")
   ∧ ∃ r d, calculate_row ["Κ"; "Α"; "Λ"; "Η"] = Some r
            ∧ total_reduced r = Int d ∧ 1 <= d <= 9).
Proof.
  assert (0 < 2 ^ 60 < 10 ^ 21) as H1 by (by vm_compute).
  assert (0 <= 0 < 10 ^ 21) as H2 by (by vm_compute).
  assert (9 * Z.of_nat (length ["Κ"; "Α"; "Λ"; "Η"]) <= MAX_SAFE_INTEGER) as H3
    by (vm_compute; discriminate).
  assert ("Λ" ∈ ["Κ"; "Α"; "Λ"; "Η"]) as H4
    by by_evaluation.
  assert (is_Some (alphabet_dict !! "Λ")) as H5 by (vm_compute; eauto).
  destruct reduceNumber_positive as (Hrange & Hzero & Hword).
  split; [split; [exact H1|exact (Hrange _ H1)]|].
  split; [split; [exact H2|exact (Hzero _ H2)]|].
  split; [exact H3|]. split; [exact H4|]. split; [exact H5|].
  exact (Hword _ _ H3 H4 H5).
Defined.

(** C10, as it stands, fails: [5 * 10 ^ 20] is a Number that prints in
    decimal and reduces to 5, twice 5 reduces to 1, but the sum [10 ^ 21]
    prints in exponent notation and reduces to [NaN]. *)
Lemma reduceNumber_additive_fails :
  to_double (5 * 10 ^ 20) = 5 * 10 ^ 20 ∧
  toString (Int (5 * 10 ^ 20)) = "500000000000000000000" ∧
  reduceNumber (Int (5 * 10 ^ 20)) = Some (Int 5) ∧
  reduceNumber (add (Int 5) (Int 5)) = Some (Int 1) ∧
  reduceNumber (Int (5 * 10 ^ 20 + 5 * 10 ^ 20)) = Some NaN ∧
  reduceNumber (Int (5 * 10 ^ 20 + 5 * 10 ^ 20))
  ≠ (ra ← reduceNumber (Int (5 * 10 ^ 20));
     rb ← reduceNumber (Int (5 * 10 ^ 20));
     reduceNumber (add ra rb)).
Proof. repeat split; [vm_compute; reflexivity..|vm_compute; discriminate]. Qed.

(** C10 (amended): for all integers [a, b >= 0] with
    [a + b <= MAX_SAFE_INTEGER], [reduceNumber (a + b)] is [reduceNumber] of
    the sum of [reduceNumber a] and [reduceNumber b]; and in the row of every
    word whose sums are safe integers, the reduced total is [reduceNumber] of
    the reduced vowel sum plus the reduced consonant sum. *)
Theorem reduceNumber_additive :
  (∀ a b, 0 <= a → 0 <= b → a + b <= MAX_SAFE_INTEGER →
     is_Some (reduceNumber (Int (a + b))) ∧
     reduceNumber (Int (a + b))
     = (ra ← reduceNumber (Int a); rb ← reduceNumber (Int b); reduceNumber (add ra rb))) ∧
  (∀ word : list string,
     9 * Z.of_nat (length word) <= MAX_SAFE_INTEGER →
     ∃ r, calculate_row word = Some r ∧
          reduceNumber (add (vowel_reduced r) (consonant_reduced r))
          = Some (total_reduced r)).
Proof.
  assert (∀ x y, 0 <= x → 0 <= y →
            reduceNumber (add (Int (digital_root x)) (Int (digital_root y)))
            = Some (Int (digital_root (x + y)))) as Hadd.
  { intros x y Hx Hy. cbn [add]. rewrite reduceNumber_safe.
    - by rewrite digital_root_add.
    - rewrite MAX_SAFE_INTEGER_value.
      unfold digital_root. destruct (Z.eqb_spec x 0), (Z.eqb_spec y 0); lia. }
  split.
  - intros a b Ha Hb Hab.
    rewrite (reduceNumber_safe a), (reduceNumber_safe b), (reduceNumber_safe (a + b))
      by lia.
    split; [by eexists|]. cbn [mbind option_bind]. symmetry. by apply Hadd.
  - intros word Hlen.
    eexists. split; [by apply calculate_row_safe|].
    cbn [vowel_reduced consonant_reduced total_reduced].
    rewrite sumValues_alphabet_dict.
    apply Hadd; apply sumValues_bounds; [exact vowels_in_range|exact consonants_in_range].
Qed.

Lemma reduceNumber_additive_witness :
  (0 <= 1998 ∧ 0 <= 47 ∧ 1998 + 47 <= MAX_SAFE_INTEGER
   ∧ is_Some (reduceNumber (Int (1998 + 47)))
   ∧ reduceNumber (Int (1998 + 47))
     = (ra ← reduceNumber (Int 1998); rb ← reduceNumber (Int 47);
        reduceNumber (add ra rb))) ∧
  (9 * Z.of_nat (length ["Κ"; "Α"; "Λ"; "Η"]) <= MAX_SAFE_INTEGER
   ∧ ∃ r, calculate_row ["Κ"; "Α"; "Λ"; "Η"] = Some r ∧
          reduceNumber (add (vowel_reduced r) (consonant_reduced r))
          = Some (total_reduced r)).
Proof.
  assert (0 <= 1998) as H1 by lia.
  assert (0 <= 47) as H2 by lia.
  assert (1998 + 47 <= MAX_SAFE_INTEGER) as H3 by (vm_compute; discriminate).
  assert (9 * Z.of_nat (length ["Κ"; "Α"; "Λ"; "Η"]) <= MAX_SAFE_INTEGER) as H4
    by (vm_compute; discriminate).
  destruct reduceNumber_additive as (Hsum & Hword).
  split.
  - split; [exact H1|]. split; [exact H2|]. split; [exact H3|].
    exact (Hsum 1998 47 H1 H2 H3).
  - split; [exact H4|exact (Hword _ H4)].
Defined.

(** * The rest of the page *)

Local Open Scope list_scope.

(** ** Splitting the input into words *)

Lemma trimStart_spec text :
  ∃ spaces, text = spaces ++ trimStart text
            ∧ Forall (fun c => white_space c = true) spaces.
Proof.
  induction text as [|c text (spaces & Htext & Hspaces)]; simpl.
  - by exists [].
  - destruct (white_space c) eqn:Hc.
    + exists (c :: spaces). split; [by rewrite Htext at 1|by constructor].
    + by exists [].
Qed.

Lemma trimEnd_spec text :
  ∃ spaces, text = trimEnd text ++ spaces
            ∧ Forall (fun c => white_space c = true) spaces.
Proof.
  destruct (trimStart_spec (reverse text)) as (spaces & Htext & Hspaces).
  exists (reverse spaces). split.
  - unfold trimEnd. rewrite <- reverse_app, <- Htext. by rewrite reverse_involutive.
  - by apply Forall_reverse.
Qed.

Lemma trim_spec text :
  ∃ before after, text = before ++ trim text ++ after
                  ∧ Forall (fun c => white_space c = true) before
                  ∧ Forall (fun c => white_space c = true) after.
Proof.
  destruct (trimStart_spec text) as (before & Htext & Hbefore).
  destruct (trimEnd_spec (trimStart text)) as (after & Hrest & Hafter).
  exists before, after. split; [|done].
  unfold trim. by rewrite <- Hrest.
Qed.

(** The pieces that [filter(Boolean)] keeps. *)
Lemma kept_pieces_nil piece matched :
  filter (fun word => word ≠ []) (split_spaces_from [] piece matched)
  = if decide (piece = []) then [] else [reverse piece].
Proof.
  simpl. destruct piece as [|c piece]; [reflexivity|].
  rewrite filter_cons_True; [reflexivity|].
  rewrite reverse_cons. by destruct (reverse piece).
Qed.

Lemma kept_pieces_matched text :
  filter (fun word => word ≠ []) (split_spaces_from text [] true)
  = filter (fun word => word ≠ []) (split_spaces_from text [] false).
Proof.
  induction text as [|c text IH]; [reflexivity|]. simpl.
  destruct (white_space c); [|reflexivity].
  by rewrite filter_cons_False by (intros H; by apply H).
Qed.

Lemma kept_pieces_cons c text piece :
  filter (fun word => word ≠ []) (split_spaces_from (c :: text) piece false)
  = if white_space c
    then (if decide (piece = []) then [] else [reverse piece])
         ++ filter (fun word => word ≠ []) (split_spaces_from text [] false)
    else filter (fun word => word ≠ []) (split_spaces_from text (c :: piece) false).
Proof.
  simpl. destruct (white_space c); [|reflexivity].
  rewrite <- kept_pieces_matched.
  destruct piece as [|d piece].
  - by rewrite filter_cons_False by (intros H; by apply H).
  - rewrite filter_cons_True; [reflexivity|].
    rewrite reverse_cons. by destruct (reverse piece).
Qed.

(** A separator ends the word before it and starts the next. *)
Lemma kept_pieces_app a c b piece :
  white_space c = true →
  filter (fun word => word ≠ []) (split_spaces_from (a ++ c :: b) piece false)
  = filter (fun word => word ≠ []) (split_spaces_from a piece false)
    ++ filter (fun word => word ≠ []) (split_spaces_from b [] false).
Proof.
  intros Hc. revert piece. induction a as [|x a IH]; intros piece.
  - rewrite app_nil_l, kept_pieces_cons, Hc, kept_pieces_nil. reflexivity.
  - rewrite <- app_comm_cons, !kept_pieces_cons.
    destruct (white_space x); [|apply IH].
    by rewrite IH, app_assoc.
Qed.

Lemma kept_pieces_spaces spaces :
  Forall (fun c => white_space c = true) spaces →
  filter (fun word => word ≠ []) (split_spaces_from spaces [] false) = [].
Proof.
  induction 1 as [|c spaces Hc _ IH]; [reflexivity|].
  by rewrite kept_pieces_cons, Hc, IH.
Qed.

Lemma kept_pieces_word word piece :
  Forall (fun c => white_space c = false) word →
  filter (fun word => word ≠ []) (split_spaces_from word piece false)
  = if decide (reverse piece ++ word = []) then [] else [reverse piece ++ word].
Proof.
  intros Hword. revert piece. induction Hword as [|c word Hc _ IH]; intros piece.
  - rewrite kept_pieces_nil, app_nil_r.
    destruct piece as [|d piece]; [reflexivity|].
    rewrite reverse_cons. by destruct (reverse piece).
  - rewrite kept_pieces_cons, Hc, IH, reverse_cons, <- app_assoc. reflexivity.
Qed.

Lemma words_of_app a c b :
  white_space c = true → words_of (a ++ c :: b) = words_of a ++ words_of b.
Proof. apply kept_pieces_app. Qed.

Lemma words_of_spaces spaces :
  Forall (fun c => white_space c = true) spaces → words_of spaces = [].
Proof. apply kept_pieces_spaces. Qed.

Lemma words_of_spaces_before spaces text :
  Forall (fun c => white_space c = true) spaces →
  words_of (spaces ++ text) = words_of text.
Proof.
  induction 1 as [|c spaces Hc _ IH]; [reflexivity|].
  rewrite <- app_comm_cons. unfold words_of, split_spaces.
  by rewrite kept_pieces_cons, Hc.
Qed.

Lemma words_of_spaces_after text spaces :
  Forall (fun c => white_space c = true) spaces →
  words_of (text ++ spaces) = words_of text.
Proof.
  intros Hspaces. destruct Hspaces as [|c spaces Hc Hspaces].
  - by rewrite app_nil_r.
  - rewrite words_of_app by exact Hc.
    rewrite (words_of_spaces spaces) by exact Hspaces. by rewrite app_nil_r.
Qed.

Lemma words_of_trim text : words_of (trim text) = words_of text.
Proof.
  destruct (trim_spec text) as (before & after & Htext & Hbefore & Hafter).
  rewrite Htext at 2.
  rewrite words_of_spaces_before by exact Hbefore.
  by rewrite words_of_spaces_after.
Qed.

Lemma kept_pieces_shape text piece :
  Forall (fun c => white_space c = false) piece →
  Forall (fun word => word ≠ [] ∧ Forall (fun c => white_space c = false) word)
         (filter (fun word => word ≠ []) (split_spaces_from text piece false)).
Proof.
  revert piece. induction text as [|c text IH]; intros piece Hpiece.
  - rewrite kept_pieces_nil. case_decide; [constructor|].
    repeat constructor.
    + intros Hrev. apply (f_equal reverse) in Hrev.
      by rewrite reverse_involutive in Hrev.
    + by apply Forall_reverse.
  - rewrite kept_pieces_cons. destruct (white_space c) eqn:Hc.
    + apply Forall_app. split; [|by apply IH].
      case_decide; [constructor|]. repeat constructor.
      * intros Hrev. apply (f_equal reverse) in Hrev.
        by rewrite reverse_involutive in Hrev.
      * by apply Forall_reverse.
    + apply IH. by constructor.
Qed.

Lemma kept_pieces_concat text piece :
  concat (filter (fun word => word ≠ []) (split_spaces_from text piece false))
  = reverse piece ++ filter (fun c => white_space c = false) text.
Proof.
  revert piece. induction text as [|c text IH]; intros piece.
  - rewrite kept_pieces_nil. cbn [filter list_filter]. rewrite app_nil_r.
    case_decide as Hp; [by subst|]. simpl. by rewrite app_nil_r.
  - rewrite kept_pieces_cons. destruct (white_space c) eqn:Hc.
    + rewrite (filter_cons_False _ c) by congruence.
      rewrite concat_app, IH.
      case_decide as Hp; [by subst|]. simpl. by rewrite app_nil_r.
    + rewrite (filter_cons_True _ c) by exact Hc.
      rewrite IH, reverse_cons, <- app_assoc. reflexivity.
Qed.

(** Every word is a non-empty run without white space, and the words, in
    order, are what is left of the text when its white space is taken out. *)
Theorem words_are_the_runs (text : list string) :
  Forall (fun word => word ≠ [] ∧ Forall (fun c => white_space c = false) word)
         (words_of (trim text)) ∧
  concat (words_of (trim text)) = filter (fun c => white_space c = false) text.
Proof.
  rewrite words_of_trim. split.
  - apply kept_pieces_shape. constructor.
  - unfold words_of, split_spaces. by rewrite kept_pieces_concat.
Qed.

(** A white-space character between two texts separates their words: the
    words of the whole are the words of the first text, then those of the
    second. *)
Theorem words_split_at_space (a b : list string) (c : string) :
  white_space c = true →
  words_of (trim (a ++ c :: b)) = words_of (trim a) ++ words_of (trim b).
Proof. intros Hc. rewrite !words_of_trim. by apply words_of_app. Qed.

Lemma words_split_at_space_witness :
  white_space " " = true ∧
  words_of (trim (letters "ΚΑΛΗ" ++ " " :: letters " ΗΜΕΡΑ "))
  = words_of (trim (letters "ΚΑΛΗ")) ++ words_of (trim (letters " ΗΜΕΡΑ ")).
Proof.
  assert (white_space " " = true) as H by reflexivity.
  split; [exact H|exact (words_split_at_space _ _ " " H)].
Defined.

(** White space around the text changes no word, and neither does [trim]:
    splitting the untrimmed text and dropping the empty pieces gives the
    same words. *)
Theorem words_ignore_padding (before text after : list string) :
  Forall (fun c => white_space c = true) before →
  Forall (fun c => white_space c = true) after →
  words_of (trim (before ++ text ++ after)) = words_of (trim text) ∧
  words_of (trim text) = words_of text.
Proof.
  intros Hbefore Hafter. rewrite !words_of_trim. split; [|reflexivity].
  rewrite words_of_spaces_before by exact Hbefore.
  by apply words_of_spaces_after.
Qed.

Lemma words_ignore_padding_witness :
  Forall (fun c => white_space c = true) (letters "  ") ∧
  Forall (fun c => white_space c = true) (letters " ") ∧
  words_of (trim (letters "  " ++ letters "ΑΒ ΓΔ" ++ letters " "))
  = words_of (trim (letters "ΑΒ ΓΔ")) ∧
  words_of (trim (letters "ΑΒ ΓΔ")) = words_of (letters "ΑΒ ΓΔ").
Proof.
  assert (Forall (fun c => white_space c = true) (letters "  ")) as H1 by by_evaluation.
  assert (Forall (fun c => white_space c = true) (letters " ")) as H2 by by_evaluation.
  split; [exact H1|]. split; [exact H2|].
  exact (words_ignore_padding _ (letters "ΑΒ ΓΔ") _ H1 H2).
Defined.

(** Round trip: words without white space, each followed by a white-space
    character, are read back as they were. *)
Theorem words_round_trip (words : list (list string)) (sep : string) :
  white_space sep = true →
  Forall (fun word => word ≠ [] ∧ Forall (fun c => white_space c = false) word) words →
  words_of (trim (foldr (fun word rest => word ++ sep :: rest) [] words)) = words.
Proof.
  intros Hsep Hwords. rewrite words_of_trim.
  induction Hwords as [|word words [Hne Hword] _ IH]; [reflexivity|].
  cbn [foldr]. rewrite words_of_app by exact Hsep. rewrite IH. f_equal.
  unfold words_of, split_spaces. rewrite kept_pieces_word by exact Hword.
  rewrite reverse_nil, app_nil_l. by case_decide.
Qed.

Lemma words_round_trip_witness :
  white_space " " = true ∧
  Forall (fun word => word ≠ [] ∧ Forall (fun c => white_space c = false) word)
         [letters "ΚΑΛΗ"; letters "ΗΜΕΡΑ"] ∧
  words_of (trim (foldr (fun word rest => word ++ " " :: rest) []
                        [letters "ΚΑΛΗ"; letters "ΗΜΕΡΑ"]))
  = [letters "ΚΑΛΗ"; letters "ΗΜΕΡΑ"].
Proof.
  assert (white_space " " = true) as H1 by reflexivity.
  assert (Forall (fun word => word ≠ [] ∧ Forall (fun c => white_space c = false) word)
                 [letters "ΚΑΛΗ"; letters "ΗΜΕΡΑ"]) as H2 by by_evaluation.
  split; [exact H1|]. split; [exact H2|exact (words_round_trip _ " " H1 H2)].
Defined.

(** ** The table *)

Lemma string_append_nil_r (s : string) : s +:+ "" = s.
Proof.
  induction s as [|c s IH]; [reflexivity|].
  change (String c (s +:+ "") = String c s). by f_equal.
Qed.

Lemma string_append_assoc (s t u : string) : (s +:+ t) +:+ u = s +:+ t +:+ u.
Proof.
  induction s as [|c s IH]; [reflexivity|].
  change (String c ((s +:+ t) +:+ u) = String c (s +:+ t +:+ u)). by f_equal.
Qed.

Lemma string_concat_cons (s : string) (l : list string) :
  String.concat "" (s :: l) = s +:+ String.concat "" l.
Proof. destruct l; simpl; [by rewrite string_append_nil_r|reflexivity]. Qed.

(** The loop appends to the table, word after word, the row of each word. *)
Lemma calculate_loop_rows words html :
  ∃ rows, Forall2 (fun word r => calculate_row word = Some r) words rows ∧
          calculate_loop html words
          = Some (html +:+ String.concat "" (zip_with table_row words rows)).
Proof.
  revert html. induction words as [|word words IH]; intros html.
  - exists []. split; [constructor|]. simpl. by rewrite string_append_nil_r.
  - destruct (calculate_row_total word) as [r Hr].
    destruct (IH (html +:+ table_row word r)) as (rows & Hrows & Hloop).
    exists (r :: rows). split; [by constructor|].
    unfold calculate_loop in *. cbn [foldl]. rewrite Hr. cbn [mbind option_bind].
    rewrite Hloop, string_append_assoc.
    cbn [zip_with]. by rewrite string_concat_cons.
Qed.

Lemma words_of_nil_iff text :
  words_of text = [] ↔ Forall (fun c => white_space c = true) text.
Proof.
  split; [|apply words_of_spaces].
  intros Hnil.
  pose proof (kept_pieces_concat text []) as Hconcat.
  fold (split_spaces text) in Hconcat. fold (words_of text) in Hconcat.
  rewrite Hnil in Hconcat. simpl in Hconcat.
  apply Forall_forall. intros c Hc.
  destruct (white_space c) eqn:Hsp; [reflexivity|].
  assert (c ∈ filter (fun c => white_space c = false) text) as Hin
    by (by apply list_elem_of_filter).
  rewrite <- Hconcat in Hin. by apply elem_of_nil in Hin.
Qed.

Lemma table_is_no_message (s : string) : table_head +:+ s ≠ no_words_message.
Proof. unfold table_head, no_words_message. simpl. discriminate. Qed.

(** [calculate] always fills the results box: with the message exactly when
    the upper-cased input has no character besides white space, and
    otherwise with the table head, one row per word in the order of the
    input (a repeated word is repeated), and the table foot. *)
Theorem calculate_outcome (toUpperCase : list string → list string) (value : list string) :
  let words := words_of (trim (toUpperCase value)) in
  (∃ rows,
     Forall2 (fun word r => calculate_row word = Some r) words rows ∧
     calculate toUpperCase value
     = Some (if decide (words = []) then no_words_message
             else table_head +:+ String.concat "" (zip_with table_row words rows)
                  +:+ table_foot)) ∧
  (calculate toUpperCase value = Some no_words_message
   ↔ Forall (fun c => white_space c = true) (toUpperCase value)).
Proof.
  intros words.
  destruct (calculate_loop_rows words table_head) as (rows & Hrows & Hloop).
  assert (calculate toUpperCase value
          = Some (if decide (words = []) then no_words_message
                  else table_head +:+ String.concat "" (zip_with table_row words rows)
                       +:+ table_foot)) as Hcalc.
  { unfold calculate. fold words.
    destruct (decide (length words = 0%nat)) as [Hlen|Hlen].
    - apply length_zero_iff_nil in Hlen. by rewrite decide_True.
    - rewrite decide_False by (intros ->; by apply Hlen).
      rewrite Hloop. cbn [mbind option_bind]. by rewrite string_append_assoc. }
  split; [by exists rows|].
  rewrite Hcalc. unfold words. rewrite words_of_trim, <- words_of_nil_iff.
  destruct (decide (words_of (toUpperCase value) = [])) as [Hnil|Hsome]; [done|].
  split; [|done].
  intros Htable. exfalso.
  apply (table_is_no_message
           (String.concat "" (zip_with table_row (words_of (toUpperCase value)) rows)
            +:+ table_foot)).
  congruence.
Qed.

(** ** How sums and reductions compose *)





(** Characters that are no key of [alphabet_dict] (hyphens, digits, Latin or
    accented letters inside a word) change no number of the row: the row
    of a word is the row of its recognized letters. *)
Theorem row_ignores_other_characters (word : list string) :
  calculate_row (filter (fun letter => is_Some (alphabet_dict !! letter)) word)
  = calculate_row word.
Proof.
  assert (∀ table,
            (∀ letter, table !! letter ≠ None → alphabet_dict !! letter ≠ None) →
            sumValues (filter (fun letter => is_Some (alphabet_dict !! letter)) word) table
            = sumValues word table) as Hsum.
  { intros table Htable.
    induction word as [|letter word IH]; [reflexivity|].
    destruct (alphabet_dict !! letter) as [v|] eqn:Hl.
    - rewrite filter_cons_True by (by rewrite Hl).
      by rewrite !sumValues_cons, IH.
    - rewrite filter_cons_False by (rewrite Hl; by intros [? ?]).
      rewrite sumValues_cons, IH. unfold contribution.
      destruct (table !! letter) eqn:Ht; [|lia].
      exfalso. apply (Htable letter); [by rewrite Ht|exact Hl]. }
  unfold calculate_row. rewrite !Hsum; [reflexivity|done|..].
  - intros letter Hc Ha. by destruct (unrecognized_by_parts letter Ha).
  - intros letter Hv Ha. by destruct (unrecognized_by_parts letter Ha).
Qed.


(** Casting out nines: up to [MAX_SAFE_INTEGER] the reduced value of a
    positive integer leaves the same remainder modulo 9 as the integer, and
    it is 9 exactly for the multiples of 9. *)
Theorem reduceNumber_casts_out_nines (n : Z) :
  0 < n <= MAX_SAFE_INTEGER →
  ∃ d, reduceNumber (Int n) = Some (Int d) ∧
       1 <= d <= 9 ∧ d mod 9 = n mod 9 ∧ (d = 9 ↔ n mod 9 = 0).
Proof.
  intros Hn. exists (digital_root n).
  split; [apply reduceNumber_safe; lia|].
  unfold digital_root. destruct (Z.eqb_spec n 0); [lia|].
  repeat split; lia.
Qed.

Lemma reduceNumber_casts_out_nines_witness :
  0 < 1998 <= MAX_SAFE_INTEGER ∧
  ∃ d, reduceNumber (Int 1998) = Some (Int d) ∧
       1 <= d <= 9 ∧ d mod 9 = 1998 mod 9 ∧ (d = 9 ↔ 1998 mod 9 = 0).
Proof.
  assert (0 < 1998 <= MAX_SAFE_INTEGER) as H by (rewrite MAX_SAFE_INTEGER_value; lia).
  split; [exact H|exact (reduceNumber_casts_out_nines 1998 H)].
Defined.

(** The numbers of a row, for a word whose sums are safe integers: the sums
    are not negative, the vowel and consonant sums are at most the total,
    which is at most nine times the length, and every reduced value is an
    integer between 0 and 9 that does not exceed its sum. *)
Theorem row_bounds (word : list string) :
  9 * Z.of_nat (length word) <= MAX_SAFE_INTEGER →
  ∃ r dv dc dt,
    calculate_row word = Some r ∧
    0 <= vowel_sum r <= total_sum r ∧
    0 <= consonant_sum r <= total_sum r ∧
    total_sum r <= 9 * Z.of_nat (length word) ∧
    vowel_reduced r = Int dv ∧ 0 <= dv <= 9 ∧ dv <= vowel_sum r ∧
    consonant_reduced r = Int dc ∧ 0 <= dc <= 9 ∧ dc <= consonant_sum r ∧
    total_reduced r = Int dt ∧ 0 <= dt <= 9 ∧ dt <= total_sum r.
Proof.
  intros Hlen.
  pose proof (sumValues_bounds vowels vowels_in_range word) as Hv.
  pose proof (sumValues_bounds consonants consonants_in_range word) as Hc.
  pose proof (sumValues_bounds alphabet_dict alphabet_dict_in_range word) as Ht.
  pose proof (sumValues_alphabet_dict word) as Hsum.
  assert (∀ s, 0 <= s → 0 <= digital_root s <= 9 ∧ digital_root s <= s) as Hroot.
  { intros s Hs. unfold digital_root. destruct (Z.eqb_spec s 0); lia. }
  eexists _, _, _, _. split; [by apply calculate_row_safe|].
  cbn [vowel_sum vowel_reduced consonant_sum consonant_reduced total_sum total_reduced].
  pose proof (Hroot _ (proj1 Hv)). pose proof (Hroot _ (proj1 Hc)).
  pose proof (Hroot _ (proj1 Ht)).
  repeat split; try reflexivity; lia.
Qed.

Lemma row_bounds_witness :
  9 * Z.of_nat (length (letters "ΚΑΛΗ")) <= MAX_SAFE_INTEGER ∧
  ∃ r dv dc dt,
    calculate_row (letters "ΚΑΛΗ") = Some r ∧
    0 <= vowel_sum r <= total_sum r ∧
    0 <= consonant_sum r <= total_sum r ∧
    total_sum r <= 9 * Z.of_nat (length (letters "ΚΑΛΗ")) ∧
    vowel_reduced r = Int dv ∧ 0 <= dv <= 9 ∧ dv <= vowel_sum r ∧
    consonant_reduced r = Int dc ∧ 0 <= dc <= 9 ∧ dc <= consonant_sum r ∧
    total_reduced r = Int dt ∧ 0 <= dt <= 9 ∧ dt <= total_sum r.
Proof.
  assert (9 * Z.of_nat (length (letters "ΚΑΛΗ")) <= MAX_SAFE_INTEGER) as H
    by (vm_compute; discriminate).
  split; [exact H|exact (row_bounds _ H)].
Defined.

(** * The filter form *)

(** ** Digits and their value *)

Lemma substring_all (s : string) : substring 0 (String.length s) s = s.
Proof. induction s as [|c s IH]; [reflexivity|]. simpl. by rewrite IH. Qed.

Lemma digit_facts (c : ascii) :
  app.is_digit c = true →
  utf8_width c = 1%nat ∧ white_space (String c "") = false
  ∧ String c "" ≠ "-" ∧ String c "" ≠ "+"
  ∧ 0 <= Z.of_N (N_of_ascii c) - 48 <= 9.
Proof.
  destruct c as [[] [] [] [] [] [] [] []]; intros Hc; try discriminate Hc;
    (repeat split; first [discriminate | by vm_compute]).
Qed.

Lemma letters_digits (s : string) :
  Forall (fun c => app.is_digit c = true) (list_ascii_of_string s) →
  letters s = (fun c => String c "") <$> list_ascii_of_string s.
Proof.
  unfold letters. induction s as [|c s IH]; intros Hs; [reflexivity|].
  apply Forall_cons in Hs as [Hc Hs].
  destruct (digit_facts c Hc) as (Hw & _).
  cbn [String.length letters_from list_ascii_of_string fmap list_fmap].
  rewrite Hw. f_equal.
  - by destruct s.
  - replace (S (String.length s) - 1)%nat with (String.length s) by lia.
    cbn [substring]. rewrite substring_all. by apply IH.
Qed.

Lemma leading_digits_all (digits : list ascii) :
  Forall (fun c => app.is_digit c = true) digits →
  app.leading_digits ((fun c => String c "") <$> digits) = digits.
Proof.
  induction 1 as [|c digits Hc _ IH]; [reflexivity|].
  cbn [fmap list_fmap app.leading_digits]. by rewrite Hc, IH.
Qed.

Lemma decimal_value_nonneg (digits : list ascii) :
  Forall (fun c => app.is_digit c = true) digits → 0 <= app.decimal_value digits.
Proof.
  intros Hd. unfold app.decimal_value.
  assert (∀ n, 0 <= n →
            0 <= foldl (fun n c => 10 * n + (Z.of_N (N_of_ascii c) - 48)) n digits) as H;
    [|by apply H].
  induction Hd as [|c digits Hc _ IH]; intros n Hn; [exact Hn|].
  cbn [foldl]. apply IH. destruct (digit_facts c Hc) as (_ & _ & _ & _ & Hv). lia.
Qed.

(** Rounding to a Number keeps what is beyond the safe integers beyond
    them. *)
Lemma to_double_beyond_safe v : 2 ^ 53 <= v → 2 ^ 53 <= to_double v.
Proof.
  intros Hv. unfold to_double.
  destruct (Z.ltb_spec v (2 ^ 53)) as [Hsmall|_]; [lia|].
  assert (53 <= Z.log2 v) as Hlog.
  { change 53 with (Z.log2 (2 ^ 53)). by apply Z.log2_le_mono. }
  set (e := Z.log2 v - 52). assert (1 <= e) as He by (unfold e; lia).
  assert (2 ^ (e + 52) <= v) as Hpow.
  { replace (e + 52) with (Z.log2 v) by (unfold e; lia).
    apply Z.log2_spec. change (2 ^ 53) with 9007199254740992 in Hv. lia. }
  rewrite Z.pow_add_r in Hpow by lia.
  assert (0 < 2 ^ e) as Hpos by (apply Z.pow_pos_nonneg; lia).
  set (q := Z.shiftr v e).
  assert (q = v / 2 ^ e) as Hq by (unfold q; apply Z.shiftr_div_pow2; lia).
  match goal with |- _ <= Z.shiftl ?q' e => assert (q <= q') as Hq' end.
  { destruct (_ || _); lia. }
  rewrite Z.shiftl_mul_pow2 by lia.
  assert (2 ^ 52 <= q) as Hdiv.
  { rewrite Hq. apply Z.div_le_lower_bound; [exact Hpos|]. lia. }
  assert (2 ^ 1 <= 2 ^ e) as Hmono by (apply Z.pow_le_mono_r; lia).
  change (2 ^ 52) with 4503599627370496 in Hdiv.
  change (2 ^ 1) with 2 in Hmono.
  change (2 ^ 53) with 9007199254740992. nia.
Qed.

Lemma to_double_nonneg v : 0 <= v → 0 <= to_double v.
Proof.
  intros Hv. destruct (Z.lt_ge_cases v (2 ^ 53)) as [Hs|Hb].
  - by rewrite to_double_small.
  - apply to_double_beyond_safe in Hb. change (2 ^ 53) with 9007199254740992 in Hb. lia.
Qed.

(** [parseInt] of a run of digits. *)
Lemma parseInt_digits (s : string) :
  s ≠ "" →
  Forall (fun c => app.is_digit c = true) (list_ascii_of_string s) →
  app.parseInt s = Int (to_double (app.decimal_value (list_ascii_of_string s))).
Proof.
  intros Hne Hs. unfold app.parseInt. rewrite letters_digits by exact Hs.
  pose proof (decimal_value_nonneg _ Hs) as Hval.
  destruct s as [|c s]; [done|].
  cbn [list_ascii_of_string] in *.
  pose proof Hs as Hall. apply Forall_cons in Hs as [Hc Hs].
  destruct (digit_facts c Hc) as (_ & Hspace & Hminus & Hplus & _).
  cbn [fmap list_fmap trimStart]. rewrite Hspace.
  assert (app.leading_digits (String c "" :: ((fun c => String c "") <$> list_ascii_of_string s))
          = c :: list_ascii_of_string s) as Hlead.
  { change (app.leading_digits ((fun c => String c "") <$> (c :: list_ascii_of_string s))
            = c :: list_ascii_of_string s).
    by apply leading_digits_all. }
  assert (app.round (app.decimal_value (c :: list_ascii_of_string s))
          = to_double (app.decimal_value (c :: list_ascii_of_string s))) as Hround.
  { unfold app.round. by destruct (Z.ltb_spec (app.decimal_value (c :: list_ascii_of_string s)) 0); [lia|]. }
  destruct c as [[] [] [] [] [] [] [] []]; try discriminate Hc;
    (rewrite Hlead, Hround; reflexivity).
Qed.

Lemma pretty_N_char_digit (d : N) : (d < 10)%N → app.is_digit (pretty_N_char d) = true.
Proof.
  intros Hd.
  assert (d ∈ [0; 1; 2; 3; 4; 5; 6; 7; 8; 9]%N) as Hin.
  { apply list_elem_of_In. simpl. lia. }
  repeat (apply elem_of_cons in Hin as [->|Hin]; [reflexivity|]).
  by apply elem_of_nil in Hin.
Qed.

Lemma pretty_N_go_digits (x : N) (s : string) :
  Forall (fun c => app.is_digit c = true) (list_ascii_of_string s) →
  Forall (fun c => app.is_digit c = true) (list_ascii_of_string (pretty_N_go x s)).
Proof.
  revert s. induction (N.lt_wf_0 x) as [x _ IH]; intros s Hs.
  destruct (N.eq_dec x 0%N) as [->|Hx]; [by rewrite pretty_N_go_0|].
  rewrite pretty_N_go_step by lia. apply IH; [apply N.div_lt; lia|].
  cbn [list_ascii_of_string]. constructor; [|exact Hs].
  apply pretty_N_char_digit, N.mod_lt. lia.
Qed.

Lemma pretty_N_go_value (x : N) (s : string) :
  foldl (fun n c => 10 * n + (Z.of_N (N_of_ascii c) - 48)) 0
        (list_ascii_of_string (pretty_N_go x s))
  = foldl (fun n c => 10 * n + (Z.of_N (N_of_ascii c) - 48)) (Z.of_N x)
          (list_ascii_of_string s).
Proof.
  revert s. induction (N.lt_wf_0 x) as [x _ IH]; intros s.
  destruct (N.eq_dec x 0%N) as [->|Hx]; [by rewrite pretty_N_go_0|].
  rewrite pretty_N_go_step by lia. rewrite IH by (apply N.div_lt; lia).
  cbn [list_ascii_of_string foldl]. f_equal.
  pose proof (Number_pretty_N_char (x mod 10)) as Hchar.
  unfold Number in Hchar.
  assert (x mod 10 < 10)%N as Hlt by (apply N.mod_lt; lia).
  pose proof (pretty_N_char_digit _ Hlt) as Hdigit.
  destruct (digit_facts _ Hdigit) as (_ & _ & _ & _ & Hrange).
  assert (Z.of_N (N_of_ascii (pretty_N_char (x mod 10))) - 48 = Z.of_N (x mod 10)) as Hv.
  { specialize (Hchar Hlt).
    destruct ((48 <=? Z.of_N (N_of_ascii (pretty_N_char (x mod 10))))
              && (Z.of_N (N_of_ascii (pretty_N_char (x mod 10))) <=? 57)) eqn:Hb.
    - by injection Hchar.
    - lia. }
  rewrite Hv, N2Z.inj_div, N2Z.inj_mod. change (Z.of_N 10) with 10. lia.
Qed.

Lemma pretty_N_go_nonempty (x : N) (s : string) :
  pretty_N_go x s = "" → x = 0%N ∧ s = "".
Proof.
  revert s. induction (N.lt_wf_0 x) as [x _ IH]; intros s Hs.
  destruct (N.eq_dec x 0%N) as [->|Hx]; [by rewrite pretty_N_go_0 in Hs|].
  rewrite pretty_N_go_step in Hs by lia.
  apply IH in Hs as [_ Hs]; [discriminate|apply N.div_lt; lia].
Qed.

(** The decimal form of an integer [n >= 0]: digits only, at least one, and
    read back they give [n]. *)
Lemma pretty_digits (n : Z) :
  0 <= n →
  pretty n ≠ "" ∧
  Forall (fun c => app.is_digit c = true) (list_ascii_of_string (pretty n)) ∧
  app.decimal_value (list_ascii_of_string (pretty n)) = n.
Proof.
  intros Hn. destruct n as [|p|p]; [|clear Hn|lia].
  - repeat split; [discriminate|by_evaluation].
  - change (pretty (Z.pos p)) with (pretty_N_go (N.pos p) "").
    split; [|split].
    + intros Hempty. by apply pretty_N_go_nonempty in Hempty as [? _].
    + apply pretty_N_go_digits. constructor.
    + unfold app.decimal_value. by rewrite pretty_N_go_value.
Qed.

Lemma toString_safe (n : Z) : 0 <= n <= MAX_SAFE_INTEGER → toString (Int n) = pretty n.
Proof.
  intros Hn. unfold toString, toString_nonneg.
  destruct (Z.ltb_spec n 0); [lia|].
  rewrite printed_safe by lia. rewrite MAX_SAFE_INTEGER_value in Hn.
  by destruct (Z.ltb_spec n (10 ^ 21)) as [_|Hbig]; [|rewrite pow10_21 in Hbig; lia].
Qed.

Lemma keep_digits_digits (raw : string) :
  Forall (fun c => app.is_digit c = true) (list_ascii_of_string (app.keep_digits raw)).
Proof.
  unfold app.keep_digits. rewrite list_ascii_of_string_of_list_ascii.
  apply Forall_forall. intros c Hc. by apply list_elem_of_filter in Hc as [Hc _].
Qed.

Lemma keep_digits_id (s : string) :
  Forall (fun c => app.is_digit c = true) (list_ascii_of_string s) →
  app.keep_digits s = s.
Proof.
  intros Hs. unfold app.keep_digits.
  rewrite <- (string_of_list_ascii_of_string s) at 2. f_equal.
  induction Hs as [|c l Hc _ IH]; [reflexivity|].
  by rewrite filter_cons_True, IH.
Qed.

(** ** sanitizeNumericInput *)

Lemma sanitize_value (el : app.input) :
  app.value (app.sanitizeNumericInput el)
  = if decide (app.keep_digits (app.value el) = "") then ""
    else pretty (Z.min (app.decimal_value
                          (list_ascii_of_string (app.keep_digits (app.value el))))
                       app.MAX_VAL).
Proof.
  unfold app.sanitizeNumericInput.
  set (digits := app.keep_digits (app.value el)).
  pose proof (keep_digits_digits (app.value el)) as Hdigits. fold digits in Hdigits.
  destruct (decide (digits = "")) as [Hempty|Hsome].
  { destruct (decide (digits ≠ app.value el)) as [Hne|Heq]; [exact Hempty|].
    apply dec_stable in Heq. by rewrite <- Heq. }
  rewrite parseInt_digits by done.
  pose proof (decimal_value_nonneg _ Hdigits) as Hval.
  pose proof (to_double_nonneg _ Hval) as Hround.
  set (v := app.decimal_value (list_ascii_of_string digits)) in *.
  cbn [app.isNaN app.less]. unfold app.MIN_VAL, app.MAX_VAL.
  destruct (Z.ltb_spec (to_double v) 0) as [Hlt|_]; [lia|].
  cbn [app.less].
  assert (∀ el', app.value (app.set_value el' (toString (Int (Z.min v 999999))))
                 = pretty (Z.min v 999999)) as Hout.
  { intros el'. cbn. apply toString_safe. rewrite MAX_SAFE_INTEGER_value. lia. }
  destruct (Z.le_gt_cases v 999999) as [Hle|Hgt].
  - rewrite to_double_small by (change (2 ^ 53) with 9007199254740992; lia).
    destruct (Z.ltb_spec 999999 v); [lia|].
    rewrite <- (Z.min_l v 999999) at 1 by lia. apply Hout.
  - assert (999999 < to_double v) as Hbig.
    { destruct (Z.lt_ge_cases v (2 ^ 53)) as [Hs|Hb].
      - rewrite to_double_small by exact Hs. lia.
      - apply to_double_beyond_safe in Hb.
        change (2 ^ 53) with 9007199254740992 in Hb. lia. }
    destruct (Z.ltb_spec 999999 (to_double v)); [|lia].
    rewrite <- (Z.min_r v 999999) at 1 by lia. apply Hout.
Qed.

Lemma sanitize_frame (el : app.input) :
  app.disabled (app.sanitizeNumericInput el) = app.disabled el ∧
  app.attr_min (app.sanitizeNumericInput el) = app.attr_min el ∧
  app.attr_max (app.sanitizeNumericInput el) = app.attr_max el ∧
  app.clear_hidden (app.sanitizeNumericInput el) = app.clear_hidden el.
Proof.
  unfold app.sanitizeNumericInput.
  repeat (case_decide || case_match); done.
Qed.

Lemma sanitize_shape (el : app.input) :
  let digits := app.keep_digits (app.value el) in
  app.sanitizeNumericInput el
  = app.set_value el
      (if decide (digits = "") then ""
       else pretty (Z.min (app.decimal_value (list_ascii_of_string digits)) app.MAX_VAL)) ∧
  (app.value (app.sanitizeNumericInput el) = ""
   ∨ ∃ n, app.MIN_VAL <= n <= app.MAX_VAL
          ∧ app.value (app.sanitizeNumericInput el) = pretty n).
Proof.
  intros digits.
  pose proof (sanitize_value el) as Hvalue. fold digits in Hvalue.
  destruct (sanitize_frame el) as (Hd & Hmin & Hmax & Hclear).
  split.
  - destruct (app.sanitizeNumericInput el) as [v d mn mx cl].
    cbn in *. unfold app.set_value. by subst.
  - rewrite Hvalue. destruct (decide (digits = "")); [by left|right].
    pose proof (keep_digits_digits (app.value el)) as Hdigits. fold digits in Hdigits.
    pose proof (decimal_value_nonneg _ Hdigits).
    eexists. split; [|reflexivity]. unfold app.MIN_VAL, app.MAX_VAL. lia.
Qed.

(** After [sanitizeNumericInput] the value of the input is empty when it had
    no digit, and otherwise the number that its digits denote, capped at
    999999 and written without leading zeros; nothing else of the input
    changes. In any case the value is empty or the decimal form of an
    integer between 0 and 999999. *)
Theorem sanitizeNumericInput_result (el : app.input) :
  let digits := app.keep_digits (app.value el) in
  app.sanitizeNumericInput el
  = app.set_value el
      (if decide (digits = "") then ""
       else pretty (Z.min (app.decimal_value (list_ascii_of_string digits)) app.MAX_VAL)) ∧
  (app.value (app.sanitizeNumericInput el) = ""
   ∨ ∃ n, app.MIN_VAL <= n <= app.MAX_VAL
          ∧ app.value (app.sanitizeNumericInput el) = pretty n).
Proof. exact (sanitize_shape el). Qed.

Lemma sanitize_clean (el : app.input) (n : Z) :
  app.MIN_VAL <= n <= app.MAX_VAL →
  app.value el = pretty n → app.sanitizeNumericInput el = el.
Proof.
  unfold app.MIN_VAL, app.MAX_VAL. intros Hn Hvalue.
  destruct (pretty_digits n) as (Hne & Hdigits & Hback); [lia|].
  destruct (sanitize_shape el) as [-> _].
  rewrite Hvalue, keep_digits_id by exact Hdigits.
  rewrite decide_False by exact Hne. rewrite Hback.
  unfold app.MAX_VAL. rewrite Z.min_l by lia.
  destruct el. unfold app.set_value. cbn in *. by subst.
Qed.

Lemma sanitize_empty (el : app.input) :
  app.value el = "" → app.sanitizeNumericInput el = el.
Proof.
  intros Hvalue. destruct (sanitize_shape el) as [-> _].
  rewrite Hvalue. cbn. destruct el. unfold app.set_value. cbn in *. by subst.
Qed.

(** [sanitizeNumericInput] is idempotent, and it leaves an input alone
    exactly when its value is empty or the decimal form, without leading
    zeros, of an integer between 0 and 999999. *)
Theorem sanitizeNumericInput_idempotent (el : app.input) :
  app.sanitizeNumericInput (app.sanitizeNumericInput el) = app.sanitizeNumericInput el ∧
  (app.sanitizeNumericInput el = el
   ↔ app.value el = ""
     ∨ ∃ n, app.MIN_VAL <= n <= app.MAX_VAL ∧ app.value el = pretty n).
Proof.
  assert (∀ el', (app.value el' = ""
                  ∨ ∃ n, app.MIN_VAL <= n <= app.MAX_VAL ∧ app.value el' = pretty n) →
                 app.sanitizeNumericInput el' = el') as Hfix.
  { intros el' [Hempty|(n & Hn & Hvalue)].
    - by apply sanitize_empty.
    - by eapply sanitize_clean. }
  destruct (sanitize_shape el) as [_ Hshape].
  split; [by apply Hfix|].
  split; [|apply Hfix].
  intros Hsame. by rewrite Hsame in Hshape.
Qed.

(** ** updateDisablesForRow *)

Lemma hasValue_empty (d : bool) (mn mx : option string) (cl : option bool) :
  app.hasValue (app.Input "" d mn mx cl) = false.
Proof. reflexivity. Qed.

Lemma hasValue_value (v : string) (d d' : bool) (mn mn' mx mx' : option string)
    (cl cl' : option bool) :
  app.hasValue (app.Input v d mn mx cl) = app.hasValue (app.Input v d' mn' mx' cl').
Proof. reflexivity. Qed.

Lemma shown_value (el : app.input) :
  app.value (app.setButtonVisibilityForInput el) = app.value el.
Proof. by destruct el as [v d mn mx [h|]]. Qed.

Lemma shown_disabled (el : app.input) :
  app.disabled (app.setButtonVisibilityForInput el) = app.disabled el.
Proof. by destruct el as [v d mn mx [h|]]. Qed.

Lemma shown_attr_min (el : app.input) :
  app.attr_min (app.setButtonVisibilityForInput el) = app.attr_min el.
Proof. by destruct el as [v d mn mx [h|]]. Qed.

Lemma shown_attr_max (el : app.input) :
  app.attr_max (app.setButtonVisibilityForInput el) = app.attr_max el.
Proof. by destruct el as [v d mn mx [h|]]. Qed.

Lemma shown_hasValue (el : app.input) :
  app.hasValue (app.setButtonVisibilityForInput el) = app.hasValue el.
Proof. by destruct el as [v d mn mx [h|]]. Qed.

Lemma shown_clear (el : app.input) :
  app.clear_hidden (app.setButtonVisibilityForInput el) = None
  ∨ app.clear_hidden (app.setButtonVisibilityForInput el)
    = Some (negb (app.hasValue (app.setButtonVisibilityForInput el))).
Proof. destruct el as [v d mn mx [h|]]; [by right|by left]. Qed.

(** The three outcomes of [updateDisablesForRow]. *)
Lemma updateDisables_exact (exact min max : app.input) :
  app.hasValue exact = true →
  app.updateDisablesForRow (app.RowInputs (Some exact) (Some min) (Some max))
  = app.RowInputs
      (Some (app.setButtonVisibilityForInput (app.set_disabled exact false)))
      (Some (app.setButtonVisibilityForInput
               (app.set_attr_max (app.set_disabled (app.set_value min "") true) None)))
      (Some (app.setButtonVisibilityForInput
               (app.set_attr_min (app.set_disabled (app.set_value max "") true) None))).
Proof.
  intros He. unfold app.updateDisablesForRow.
  cbn [app.exact_input app.min_input app.max_input]. by rewrite He.
Qed.

Lemma updateDisables_range (exact min max : app.input) :
  app.hasValue exact = false →
  app.hasValue min || app.hasValue max = true →
  app.updateDisablesForRow (app.RowInputs (Some exact) (Some min) (Some max))
  = app.RowInputs
      (Some (app.setButtonVisibilityForInput
               (app.set_disabled (app.set_value exact "") true)))
      (Some (app.setButtonVisibilityForInput (app.set_disabled min false)))
      (Some (app.setButtonVisibilityForInput (app.set_disabled max false))).
Proof.
  intros He Hr. unfold app.updateDisablesForRow.
  cbn [app.exact_input app.min_input app.max_input]. by rewrite He, Hr.
Qed.

Lemma updateDisables_none (exact min max : app.input) :
  app.hasValue exact = false →
  app.hasValue min || app.hasValue max = false →
  app.updateDisablesForRow (app.RowInputs (Some exact) (Some min) (Some max))
  = app.RowInputs
      (Some (app.setButtonVisibilityForInput (app.set_disabled exact false)))
      (Some (app.setButtonVisibilityForInput
               (app.set_attr_max (app.set_disabled min false) None)))
      (Some (app.setButtonVisibilityForInput
               (app.set_attr_min (app.set_disabled max false) None))).
Proof.
  intros He Hr. unfold app.updateDisablesForRow.
  cbn [app.exact_input app.min_input app.max_input]. by rewrite He, Hr.
Qed.

(** Reads the fields of inputs that were set and shown. *)
Ltac read_fields :=
  repeat progress
    (rewrite ?shown_value, ?shown_disabled, ?shown_attr_min, ?shown_attr_max,
       ?shown_hasValue;
     cbn [app.value app.disabled app.attr_min app.attr_max app.clear_hidden
          app.set_value app.set_disabled app.set_attr_min app.set_attr_max]).

(** After [updateDisablesForRow] on a row that has its three inputs, the
    exact filter and the range filter exclude one another: when the exact
    input has a value, min and max are empty and disabled; when it has none
    and min or max has one, the exact input is emptied and disabled; when
    none has a value all three are enabled. So a disabled input is always
    empty, and the clear button of each input is hidden exactly when the
    input has no value. *)
Theorem updateDisablesForRow_exclusive (exact min max : app.input) :
  ∃ exact' min' max',
    app.updateDisablesForRow (app.RowInputs (Some exact) (Some min) (Some max))
    = app.RowInputs (Some exact') (Some min') (Some max') ∧
    app.hasValue exact' = app.hasValue exact ∧
    app.disabled exact' = negb (app.hasValue exact)
                          && (app.hasValue min || app.hasValue max) ∧
    app.disabled min' = app.hasValue exact ∧
    app.disabled max' = app.hasValue exact ∧
    app.value min' = (if app.hasValue exact then "" else app.value min) ∧
    app.value max' = (if app.hasValue exact then "" else app.value max) ∧
    Forall (fun el => (app.disabled el = true → app.value el = "") ∧
                      (app.clear_hidden el = None
                       ∨ app.clear_hidden el = Some (negb (app.hasValue el))))
           [exact'; min'; max'].
Proof.
  assert (∀ el, (app.disabled el = true → app.value el = "") →
                (app.disabled (app.setButtonVisibilityForInput el) = true
                 → app.value (app.setButtonVisibilityForInput el) = "")
                ∧ (app.clear_hidden (app.setButtonVisibilityForInput el) = None
                   ∨ app.clear_hidden (app.setButtonVisibilityForInput el)
                     = Some (negb (app.hasValue (app.setButtonVisibilityForInput el)))))
    as Hshown.
  { intros el Hel. split; [by read_fields|apply shown_clear]. }
  destruct (app.hasValue exact) eqn:He;
    [|destruct (app.hasValue min || app.hasValue max) eqn:Hr].
  - eexists _, _, _. split; [by apply updateDisables_exact|].
    read_fields. unfold app.hasValue at 1. read_fields. fold (app.hasValue exact).
    repeat (split; [done|]).
    repeat (apply Forall_cons; split; [apply Hshown; by read_fields|]).
    by apply Forall_nil.
  - eexists _, _, _. split; [by apply updateDisables_range|].
    read_fields. unfold app.hasValue at 1. read_fields.
    repeat (split; [done|]).
    repeat (apply Forall_cons; split; [apply Hshown; by read_fields|]).
    by apply Forall_nil.
  - eexists _, _, _. split; [by apply updateDisables_none|].
    read_fields. unfold app.hasValue at 1. read_fields. fold (app.hasValue exact).
    repeat (split; [done|]).
    repeat (apply Forall_cons; split; [apply Hshown; by read_fields|]).
    by apply Forall_nil.
Qed.

(** Running [updateDisablesForRow] again changes nothing. *)
Theorem updateDisablesForRow_idempotent (r : app.row_inputs) :
  app.updateDisablesForRow (app.updateDisablesForRow r) = app.updateDisablesForRow r.
Proof.
  destruct r as [[exact|] [min|] [max|]]; try reflexivity.
  destruct (app.hasValue exact) eqn:He;
    [|destruct (app.hasValue min || app.hasValue max) eqn:Hr].
  - rewrite (updateDisables_exact _ _ _ He).
    rewrite updateDisables_exact by (by read_fields).
    destruct exact as [ve de ne xe [he|]], min as [vm dm nm xm [hm|]],
             max as [vx dx nx xx [hx|]]; reflexivity.
  - rewrite (updateDisables_range _ _ _ He Hr).
    rewrite updateDisables_range.
    + destruct exact as [ve de ne xe [he|]], min as [vm dm nm xm [hm|]],
               max as [vx dx nx xx [hx|]]; reflexivity.
    + by read_fields.
    + read_fields. exact Hr.
  - rewrite (updateDisables_none _ _ _ He Hr).
    rewrite updateDisables_none.
    + destruct exact as [ve de ne xe [he|]], min as [vm dm nm xm [hm|]],
               max as [vx dx nx xx [hx|]]; reflexivity.
    + by read_fields.
    + read_fields. exact Hr.
Qed.

(** ** enforceStrictRangeForRow *)

Lemma trimStart_word c text : white_space c = false → trimStart (c :: text) = c :: text.
Proof. intros Hc. simpl. by rewrite Hc. Qed.

Lemma trim_digits (s : string) :
  s ≠ "" →
  Forall (fun c => app.is_digit c = true) (list_ascii_of_string s) →
  trim (letters s) ≠ [].
Proof.
  intros Hne Hs Htrim.
  destruct (trim_spec (letters s)) as (before & after & Htext & Hbefore & Hafter).
  rewrite Htrim, app_nil_l, letters_digits in Htext by exact Hs.
  assert (Forall (fun c => white_space c = true)
                 ((fun c => String c "") <$> list_ascii_of_string s)) as Hall.
  { rewrite Htext. by apply Forall_app. }
  destruct s as [|c s]; [done|].
  cbn [list_ascii_of_string fmap list_fmap] in *.
  apply Forall_cons in Hs as [Hc _]. apply Forall_cons in Hall as [Hsp _].
  destruct (digit_facts c Hc) as (_ & Hnot & _). congruence.
Qed.

Lemma hasValue_pretty (el : app.input) (n : Z) :
  0 <= n → app.value el = pretty n → app.hasValue el = true.
Proof.
  intros Hn Hvalue. unfold app.hasValue. rewrite Hvalue.
  destruct (pretty_digits n Hn) as (Hne & Hdigits & _).
  rewrite bool_decide_eq_false_2; [reflexivity|].
  by apply trim_digits.
Qed.

Lemma parseInt_pretty (n : Z) :
  0 <= n <= app.MAX_VAL → app.parseInt (pretty n) = Int n.
Proof.
  unfold app.MAX_VAL. intros Hn.
  destruct (pretty_digits n) as (Hne & Hdigits & Hback); [lia|].
  rewrite parseInt_digits, Hback by done.
  by rewrite to_double_small by (change (2 ^ 53) with 9007199254740992; lia).
Qed.

Lemma round_small (z : Z) : -1 <= z <= 1000000 → app.round z = z.
Proof.
  intros Hz. unfold app.round. destruct (Z.ltb_spec z 0).
  - rewrite to_double_small by (change (2 ^ 53) with 9007199254740992; lia). lia.
  - by rewrite to_double_small by (change (2 ^ 53) with 9007199254740992; lia).
Qed.


(** When the exact input has a value, [enforceStrictRangeForRow] leaves the
    range empty, disabled and without native bounds, whatever it held and
    whichever field was edited. *)
Theorem enforceStrictRangeForRow_exact_wins
    (exact min max : app.input) (edited : app.edited_field) :
  app.hasValue exact = true →
  ∃ exact' min' max',
    app.enforceStrictRangeForRow (app.RowInputs (Some exact) (Some min) (Some max)) edited
    = app.RowInputs (Some exact') (Some min') (Some max') ∧
    app.value exact' = app.value exact ∧ app.disabled exact' = false ∧
    app.value min' = "" ∧ app.value max' = "" ∧
    app.disabled min' = true ∧ app.disabled max' = true ∧
    app.attr_max min' = None ∧ app.attr_min max' = None.
Proof.
  intros He. unfold app.enforceStrictRangeForRow.
  cbn [app.min_input app.max_input].
  rewrite (updateDisables_exact _ _ _ He).
  cbn [app.min_input app.max_input app.exact_input]. read_fields.
  rewrite !decide_True by done.
  eexists _, _, _. split; [reflexivity|]. read_fields. done.
Qed.

Lemma enforceStrictRangeForRow_exact_wins_witness :
  app.hasValue (app.Input "7" false None None None) = true ∧
  ∃ exact' min' max',
    app.enforceStrictRangeForRow
      (app.RowInputs (Some (app.Input "7" false None None None))
                     (Some (app.Input "5" false None (Some "8") None))
                     (Some (app.Input "9" false (Some "6") None None)))
      app.EditedMin
    = app.RowInputs (Some exact') (Some min') (Some max') ∧
    app.value exact' = "7" ∧ app.disabled exact' = false ∧
    app.value min' = "" ∧ app.value max' = "" ∧
    app.disabled min' = true ∧ app.disabled max' = true ∧
    app.attr_max min' = None ∧ app.attr_min max' = None.
Proof.
  assert (app.hasValue (app.Input "7" false None None None) = true) as H by reflexivity.
  split; [exact H|exact (enforceStrictRangeForRow_exact_wins _ _ _ app.EditedMin H)].
Defined.


(** ** debounce *)

(** Reachable states keep at most the timer that [t] names. *)
Lemma debounce_step_one_timer {A} (s : app.debounced A) (e : app.event A) :
  (∀ id args, app.waiting s !! id = Some args → app.timer s = Some id) →
  ∀ id args, app.waiting (app.debounce_step s e) !! id = Some args →
             app.timer (app.debounce_step s e) = Some id.
Proof.
  intros Hone id args. destruct e as [a|a|due]; cbn.
  - intros Hid. destruct (decide (app.next_timer s = id)) as [->|Hne]; [reflexivity|].
    rewrite lookup_insert_ne in Hid by done.
    destruct (app.timer s) as [t|] eqn:Ht; cbn in Hid.
    + destruct (decide (t = id)) as [->|Hti]; [by rewrite lookup_delete_eq in Hid|].
      rewrite lookup_delete_ne in Hid by done. apply Hone in Hid. congruence.
    + apply Hone in Hid. congruence.
  - destruct (app.timer s) as [t|] eqn:Ht; cbn.
    + intros Hid. destruct (decide (t = id)) as [->|Hti]; [reflexivity|].
      rewrite lookup_delete_ne in Hid by done. apply Hone in Hid. congruence.
    + intros Hid. apply Hone in Hid. congruence.
  - destruct (app.waiting s !! due) as [a|] eqn:Hdue; cbn; [|apply Hone].
    intros Hid. destruct (decide (due = id)) as [->|Hne];
      [by rewrite lookup_delete_eq in Hid|].
    rewrite lookup_delete_ne in Hid by done. by apply Hone in Hid.
Qed.

Lemma debounce_one_timer {A} (events : list (app.event A)) (id : nat) (args : A) :
  app.waiting (app.debounce_run events) !! id = Some args →
  app.timer (app.debounce_run events) = Some id.
Proof.
  revert id args. unfold app.debounce_run.
  induction events as [|e events IH] using rev_ind; intros id args.
  - cbn. by rewrite lookup_empty.
  - rewrite foldl_app. cbn [foldl]. by apply debounce_step_one_timer.
Qed.

Lemma one_timer_cleared {A} (s : app.debounced A) :
  (∀ id args, app.waiting s !! id = Some args → app.timer s = Some id) →
  app.clearTimeout (app.timer s) (app.waiting s) = ∅.
Proof.
  intros Hone. apply map_eq. intros id. rewrite lookup_empty.
  destruct (app.clearTimeout (app.timer s) (app.waiting s) !! id) as [a|] eqn:Hid;
    [|reflexivity].
  unfold app.clearTimeout in Hid. destruct (app.timer s) as [t|] eqn:Ht.
  - destruct (decide (t = id)) as [->|Hne]; [by rewrite lookup_delete_eq in Hid|].
    rewrite lookup_delete_ne in Hid by done. apply Hone in Hid. congruence.
  - apply Hone in Hid. congruence.
Qed.

(** Whatever happened before: after [wrapped(args)] exactly one timer is
    waiting, the one just set, and it holds these arguments, so an earlier
    call that has not run yet never will; after [wrapped.flush(args)] no
    timer is waiting and [fn] has run once more, with these arguments; and
    a timer that comes due runs [fn] at most once, only if it is the one
    set last, and leaves none waiting. *)
Theorem debounce_keeps_the_last_call {A} (events : list (app.event A)) (args : A) (id : nat) :
  let s := app.debounce_run events in
  (app.waiting (app.debounce_step s (app.Call args)) = {[app.next_timer s := args]} ∧
   app.timer (app.debounce_step s (app.Call args)) = Some (app.next_timer s) ∧
   app.ran (app.debounce_step s (app.Call args)) = app.ran s) ∧
  (app.waiting (app.debounce_step s (app.Flush args)) = ∅ ∧
   app.ran (app.debounce_step s (app.Flush args)) = args :: app.ran s) ∧
  (app.debounce_step s (app.Due id) = s
   ∨ ∃ last, app.timer s = Some id ∧ app.waiting s = {[id := last]} ∧
             app.waiting (app.debounce_step s (app.Due id)) = ∅ ∧
             app.ran (app.debounce_step s (app.Due id)) = last :: app.ran s).
Proof.
  intros s.
  assert (∀ id args, app.waiting s !! id = Some args → app.timer s = Some id) as Hone
    by apply debounce_one_timer.
  pose proof (one_timer_cleared s Hone) as Hclear.
  split; [|split].
  - cbn. by rewrite Hclear.
  - cbn. by rewrite Hclear.
  - cbn. destruct (app.waiting s !! id) as [last|] eqn:Hid; [right|by left].
    pose proof (Hone _ _ Hid) as Ht.
    assert (app.waiting s = {[id := last]}) as Hwait.
    { apply map_eq. intros k. destruct (decide (id = k)) as [<-|Hne].
      - by rewrite lookup_singleton_eq.
      - rewrite lookup_singleton_ne by done.
        destruct (app.waiting s !! k) as [a|] eqn:Hk; [|reflexivity].
        apply Hone in Hk. congruence. }
    exists last. cbn. rewrite Hwait. split; [done|]. split; [done|].
    split; [|done]. apply delete_singleton_eq.
Qed.

(** ** validateFilters *)

Lemma out_of_bounds_clean (el : app.input) :
  (app.value el = ""
   ∨ ∃ n, app.MIN_VAL <= n <= app.MAX_VAL ∧ app.value el = pretty n) →
  app.out_of_bounds el = false.
Proof.
  unfold app.out_of_bounds, app.MIN_VAL. intros [->|(n & Hn & ->)]; [done|].
  destruct (pretty_digits n) as (Hne & _); [lia|].
  rewrite decide_False by done. rewrite parseInt_pretty by lia.
  unfold app.MAX_VAL in *. cbn.
  destruct (Z.ltb_spec n 0), (Z.ltb_spec 999999 n); (done || lia).
Qed.

Lemma hasValue_no_value (el : app.input) : app.value el = "" → app.hasValue el = false.
Proof. intros Hvalue. unfold app.hasValue. by rewrite Hvalue. Qed.

Lemma validateFilters_row_shape (exact min max : app.input) :
  ∃ exact' min' max',
    app.validateFilters_row (app.RowInputs (Some exact) (Some min) (Some max))
    = app.RowInputs (Some exact') (Some min') (Some max') ∧
    app.out_of_bounds exact' = false ∧
    app.out_of_bounds min' = false ∧
    app.out_of_bounds max' = false ∧
    (app.value exact' = "" ∨ app.value min' = "" ∧ app.value max' = "") ∧
    (app.value min' = "" ∨ app.value max' = ""
     ∨ ∃ lo hi, app.value min' = pretty lo ∧ app.value max' = pretty hi ∧
                app.MIN_VAL <= lo <= hi ∧ hi <= app.MAX_VAL ∧
                (lo = hi → lo = app.MAX_VAL)).
Proof.
  destruct (sanitize_shape exact) as [_ He], (sanitize_shape min) as [_ Hm],
           (sanitize_shape max) as [_ Hx].
  unfold app.validateFilters_row. cbn [app.exact_input app.min_input app.max_input].
  revert He Hm Hx.
  generalize (app.sanitizeNumericInput exact) (app.sanitizeNumericInput min)
             (app.sanitizeNumericInput max).
  clear exact min max. intros exact min max He Hm Hx.
  unfold app.MIN_VAL, app.MAX_VAL in *.
  assert (∀ z, 0 <= z <= 999999 → toString (Int z) = pretty z) as Hprint.
  { intros z Hz. apply toString_safe. rewrite MAX_SAFE_INTEGER_value. lia. }
  assert (∀ el : app.input,
            (app.value el = "" ∨ ∃ n, 0 <= n <= 999999 ∧ app.value el = pretty n) →
            app.out_of_bounds (app.setButtonVisibilityForInput el) = false) as Hclean.
  { intros el Hel. apply out_of_bounds_clean. by read_fields. }
  destruct He as [He|(n & Hn & He)].
  - pose proof (hasValue_no_value _ He) as Hexact.
    destruct Hm as [Hm|(lo & Hlo & Hm)].
    + pose proof (hasValue_no_value _ Hm) as Hmin.
      destruct Hx as [Hx|(hi & Hhi & Hx)].
      * pose proof (hasValue_no_value _ Hx) as Hmax.
        rewrite updateDisables_none by (by rewrite ?Hmin, ?Hmax).
        cbn [app.exact_input app.min_input app.max_input]. read_fields.
        rewrite Hm. cbn [negb andb]. rewrite decide_True by done.
        eexists _, _, _. split; [reflexivity|]. read_fields.
        split; [by apply Hclean; read_fields; left|].
        split; [by apply Hclean; read_fields; left|].
        split; [by apply Hclean; read_fields; left|].
        split; [by left|by left].
      * rewrite updateDisables_range
          by (rewrite ?(hasValue_pretty max hi) by (lia || done); by rewrite ?orb_true_r).
        cbn [app.exact_input app.min_input app.max_input]. read_fields.
        rewrite Hm. cbn [negb andb]. rewrite decide_True by done.
        eexists _, _, _. split; [reflexivity|]. read_fields.
        split; [by apply Hclean; read_fields; left|].
        split; [by apply Hclean; read_fields; left|].
        split; [apply Hclean; read_fields; right; by exists hi|].
        split; [by left|by left].
    + assert (app.hasValue min || app.hasValue max = true) as Hr
        by (by rewrite (hasValue_pretty min lo) by (lia || done)).
      destruct (pretty_digits lo) as (Hlo_ne & _); [lia|].
      rewrite updateDisables_range by done.
      cbn [app.exact_input app.min_input app.max_input]. read_fields.
      rewrite Hm. cbn [negb andb]. rewrite (decide_False (P := pretty lo = "")) by done.
      destruct Hx as [Hx|(hi & Hhi & Hx)].
      * rewrite Hx. rewrite decide_True by done.
        eexists _, _, _. split; [reflexivity|]. read_fields.
        split; [by apply Hclean; read_fields; left|].
        split; [apply Hclean; read_fields; right; by exists lo|].
        split; [by apply Hclean; read_fields; left|].
        split; [by left|right; by left].
      * destruct (pretty_digits hi) as (Hhi_ne & _); [lia|].
        rewrite Hx. rewrite (decide_False (P := pretty hi = "")) by done.
        rewrite !parseInt_pretty by (unfold app.MAX_VAL; lia).
        cbn [app.plus app.Math_min app.at_most].
        rewrite !round_small by lia. rewrite Hprint by lia.
        destruct (Z.leb_spec hi lo) as [Hle|Hgt].
        -- eexists _, _, _. split; [reflexivity|].
           cbn [app.value app.set_value]. read_fields.
           split; [by apply Hclean; read_fields; left|].
           split; [apply Hclean; read_fields; right; by exists lo|].
           split; [apply out_of_bounds_clean; cbn [app.value app.set_value];
                   right; eexists; split; [|reflexivity];
                   unfold app.MIN_VAL, app.MAX_VAL; lia|].
           split; [by left|]. right. right.
           exists lo, (Z.min 999999 (lo + 1)). rewrite Hm.
           repeat split; (done || lia).
        -- eexists _, _, _. split; [reflexivity|]. read_fields.
           split; [by apply Hclean; read_fields; left|].
           split; [apply Hclean; read_fields; right; by exists lo|].
           split; [apply Hclean; read_fields; right; by exists hi|].
           split; [by left|]. right. right.
           exists lo, hi. rewrite Hm, Hx. repeat split; (done || lia).
  - rewrite updateDisables_exact by (by apply (hasValue_pretty exact n); [lia|]).
    cbn [app.exact_input app.min_input app.max_input]. read_fields.
    cbn [negb andb].
    eexists _, _, _. split; [reflexivity|]. read_fields.
    split; [apply Hclean; read_fields; right; by exists n|].
    split; [by apply Hclean; read_fields; left|].
    split; [by apply Hclean; read_fields; left|].
    split; [by right|by left].
Qed.


(** When every row has its three inputs, whatever they hold,
    [validateFilters] accepts the form exactly when none of the other
    inputs that it checks is out of bounds: what is typed in a row is
    repaired, never reported. *)
Theorem validateFilters_only_reports_others
    (rows : list app.row_inputs) (others : list app.input) :
  Forall (fun r => is_Some (app.exact_input r) ∧ is_Some (app.min_input r)
                   ∧ is_Some (app.max_input r)) rows →
  snd (app.validateFilters rows others)
  = bool_decide (Forall (fun el => app.out_of_bounds el = false) others).
Proof.
  intros Hrows. unfold app.validateFilters. cbn [snd].
  assert (filter (fun el => app.out_of_bounds el = true)
                 ((app.validateFilters_row <$> rows) ≫= app.row_elements) = []) as Hnone.
  { induction Hrows as [|r rows (Hexact & Hmin & Hmax) _ IH]; [reflexivity|].
    rewrite fmap_cons, bind_cons, filter_app, IH, app_nil_r.
    destruct r as [[exact|] [min|] [max|]];
      try (by destruct Hexact); try (by destruct Hmin); try (by destruct Hmax).
    destruct (validateFilters_row_shape exact min max)
      as (exact' & min' & max' & -> & He & Hm & Hx & _).
    unfold app.row_elements. cbn [app.exact_input app.min_input app.max_input].
    change (omap id [Some exact'; Some min'; Some max']) with [exact'; min'; max'].
    rewrite !filter_cons_False by congruence. reflexivity. }
  rewrite filter_app, Hnone, app_nil_l.
  apply bool_decide_ext. rewrite length_zero_iff_nil.
  induction others as [|el others IH]; [by split; [constructor|]|].
  destruct (app.out_of_bounds el) eqn:Hel.
  - rewrite filter_cons_True by done. split; [done|].
    intros Hall. apply Forall_cons in Hall as [? _]. congruence.
  - rewrite filter_cons_False by congruence. rewrite IH.
    split; [by constructor|]. intros Hall. by apply Forall_cons in Hall as [_ ?].
Qed.

Lemma validateFilters_only_reports_others_witness :
  Forall (fun r => is_Some (app.exact_input r) ∧ is_Some (app.min_input r)
                   ∧ is_Some (app.max_input r))
         [app.RowInputs (Some (app.Input "" false None None None))
                        (Some (app.Input "12a" false None None None))
                        (Some (app.Input "-7" false None None None))] ∧
  snd (app.validateFilters
         [app.RowInputs (Some (app.Input "" false None None None))
                        (Some (app.Input "12a" false None None None))
                        (Some (app.Input "-7" false None None None))]
         [app.Input "1000000" false None None None])
  = bool_decide (Forall (fun el => app.out_of_bounds el = false)
                        [app.Input "1000000" false None None None]).
Proof.
  assert (Forall (fun r => is_Some (app.exact_input r) ∧ is_Some (app.min_input r)
                           ∧ is_Some (app.max_input r))
                 [app.RowInputs (Some (app.Input "" false None None None))
                                (Some (app.Input "12a" false None None None))
                                (Some (app.Input "-7" false None None None))]) as H.
  { constructor; [|constructor]. cbn. by repeat split. }
  split; [exact H|].
  exact (validateFilters_only_reports_others _ [app.Input "1000000" false None None None] H).
Defined.
